(** * udmcorpus-wrapper: the dictionary and corpus clients of [udmurtwrapper.py]

    A shallow embedding of the two clients of the Udmurt corpus service and
    the properties of their request traffic and results.

    - Python [int] is [Z], [str] is [string] (a sequence of UTF-8 bytes; the
      only character the code inspects is the ASCII [~], whose byte never
      occurs inside a multi-byte sequence), [dict] is [gmap].
    - [requests.post] is the only effect.  The upstream service is a function
      of the traffic so far and of the request; every call of [make_request]
      appends its request to a log that is threaded through the code.
    - The exceptions are those the module raises itself, and [TypeError]
      for a call of [get_word] that does not bind its parameters.  What the
      HTTP library or the decoding of an answer may raise is outside the
      model, so no property says that nothing else is raised.
    - [lru_cache] is one cache for all clients, keyed by the call as it is
      written, over a store of the returned objects by address, so that a
      list handed out twice is one list.
    - The two external collaborators of the dictionary client, the
      morphological analyzer and the HTML text extraction, are the section
      variables [analyze_lemma] and [html_text]. *)

From Stdlib Require Import ZArith Lia Ascii.
From Stdlib Require String.
From stdpp Require Import gmap strings list fin_maps.

Open Scope Z_scope.

(** ** Exceptions, outcomes and the request monad *)

(** The exception classes of the module and the builtins [ValueError],
    [KeyError] and [TypeError] (the last for a call whose arguments do not
    bind to the parameters).  Each carries the data its message
    interpolates. *)
Inductive Error : Type :=
| APIError (status_code : Z) (text : string)
| WordNotFoundError (word : string)
| TextsNotFoundError (text : string)
| ValueError (lang : string)
| KeyError (key : string)
| TypeError.

(** What a call does: it returns, it raises, or the bound on the number of
    loop iterations was too small to see it finish. *)
Inductive Outcome (A : Type) : Type :=
| Return (a : A)
| Raise (e : Error)
| OutOfFuel.
Arguments Return {A} a.
Arguments Raise {A} e.
Arguments OutOfFuel {A}.

(** What [requests.post] hands back: [response.status_code],
    [response.text] and [response.json()]. *)
Module Http.
Record HttpResponse (J : Type) : Type := mkHttp {
  status_code : Z;
  text : string;
  json : J
}.
Arguments mkHttp {J}.
Arguments status_code {J}.
Arguments text {J}.
Arguments json {J}.
End Http.
Import Http.

(** One POST: the endpoint below [/api/public/] and the JSON body. *)
Record Request (P : Type) : Type := mkRequest {
  endpoint : string;
  payload : P
}.
Arguments mkRequest {P}.
Arguments endpoint {P}.
Arguments payload {P}.

(** The service answers a request knowing the requests before it. *)
Definition Upstream (P J : Type) : Type :=
  list (Request P) → Request P → HttpResponse J.

(** A computation reads the log of requests sent so far (oldest first) and
    extends it. *)
Definition M (P A : Type) : Type :=
  list (Request P) → Outcome A * list (Request P).

Definition ret {P A} (a : A) : M P A := λ log, (Return a, log).

Definition raise {P A} (e : Error) : M P A := λ log, (Raise e, log).

Definition out_of_fuel {P A} : M P A := λ log, (OutOfFuel, log).

Definition bind {P A B} (m : M P A) (k : A → M P B) : M P B :=
  λ log,
    match m log with
    | (Return a, log') => k a log'
    | (Raise e, log') => (Raise e, log')
    | (OutOfFuel, log') => (OutOfFuel, log')
    end.

#[global] Instance M_ret {P} : MRet (M P) := λ A, @ret P A.
#[global] Instance M_bind {P} : MBind (M P) := λ A B k m, @bind P A B m k.

(** [make_request] of both clients: POST, then [APIError] unless the status
    is 200. *)
Definition make_request {P J} (upstream : Upstream P J)
    (endpoint : string) (payload : P) : M P J :=
  λ log,
    let request := mkRequest endpoint payload in
    let response := upstream log request in
    (if status_code response =? 200
     then Return (json response)
     else Raise (APIError (status_code response) (Http.text response)),
     log ++ [request]).

(** ** Strings *)

(** [text.replace(old, new)] for a one-character [old]: every occurrence is
    replaced, left to right, and the inserted text is not scanned again. *)
Fixpoint str_replace (old : ascii) (new text : string) : string :=
  match text with
  | EmptyString => EmptyString
  | String c rest =>
      if Ascii.eqb c old
      then new +:+ str_replace old new rest
      else String c (str_replace old new rest)
  end.

(** [ch in text]. *)
Fixpoint str_contains (ch : ascii) (text : string) : bool :=
  match text with
  | EmptyString => false
  | String c rest => Ascii.eqb c ch || str_contains ch rest
  end.

Definition tilde : ascii := "~"%char.

(** ** The dictionary client *)

Module Dictionary.

(** [@dataclass class Language]. *)
Record Language : Type := mkLanguage {
  id : Z;
  code : string
}.

(** [UdmurtDictionary.LANGUAGES]. *)
Definition LANGUAGES : gmap string Language :=
  <["udm" := mkLanguage 1 "udm"]> (<["rus" := mkLanguage 2 "rus"]> ∅).

(** The body of a dictionary request:
    [{"word": word, "lang": {"id": id}}]. *)
Record Payload : Type := mkPayload {
  word : string;
  lang_id : Z
}.

(** One element of the JSON array the dictionary answers with. *)
Record Item : Type := mkItem {
  body : string;
  srcWord : string
}.

(** [Union[List[str], Dict[str, Any]]]: the processed translations, or the
    response as received. *)
Inductive WordResult : Type :=
| Translations (texts : list string)
| FullJson (response : list Item).

(** The request of a lookup of [word]:
    [make_request('dictionary/search', {...})]. *)
Definition search_request (word : string) (language : Language)
    : Request Payload :=
  mkRequest "dictionary/search" (mkPayload word (id language)).

Section Client.

(** [self.udmurt_analyzer.analyze_words(word)[0].lemma]. *)
Variable analyze_lemma : string → string.

(** [BeautifulSoup(html, "lxml").text]. *)
Variable html_text : string → string.

Variable upstream : Upstream Payload (list Item).

(** [_process_response]; the parameter [word] is not read by the body. *)
Definition _process_response (response : list Item) (word : string)
    (replace_tilde : bool) : list string :=
  map (λ item,
         let text := html_text (body item) in
         if replace_tilde then str_replace tilde (srcWord item) text else text)
      response.

(** [not response] for a JSON array. *)
Definition is_empty (response : list Item) : bool :=
  match response with [] => true | _ => false end.

(** The body of [get_word], below the [lru_cache] decorator.  The subscript
    [self.LANGUAGES[lang]] is evaluated while the argument of the first
    [make_request] is built, so its [KeyError] (turned into [ValueError])
    comes before any request. *)
Definition get_word (word lang : string)
    (replace_tilde return_full_json lemmatize_if_not_found : bool)
    : M Payload WordResult :=
  match LANGUAGES !! lang with
  | None => raise (ValueError lang)
  | Some language =>
      response ← make_request upstream "dictionary/search"
                   (mkPayload word (id language));
      '(response, word) ←
        (if is_empty response then
           if lemmatize_if_not_found then
             let new_word := analyze_lemma word in
             if negb (String.eqb new_word "") then
               response ← make_request upstream "dictionary/search"
                            (mkPayload new_word (id language));
               if is_empty response
               then raise (WordNotFoundError word)
               else ret (response, new_word)
             else raise (WordNotFoundError word)
           else raise (WordNotFoundError word)
         else ret (response, word));
      if return_full_json
      then ret (FullJson response)
      else ret (Translations (_process_response response word replace_tilde))
  end.

(** *** [@lru_cache(maxsize=128)]

    The decorator sits on the function of the class: there is one cache for
    all clients, and its key is the call as it is written, [self] first: the
    positional arguments, then the keyword arguments in the order given.  Two
    calls that bind the parameters to the same values but are written
    differently have different keys.

    The cache stores the object the body returned, not a copy.  Objects live
    in a store and are known by their address; a caller that holds a returned
    list can change it, and a later hit hands out the same, changed, object.

    A hit returns the stored object and makes the entry the most recent one.
    A miss runs the body; a result is stored as the most recent entry and the
    least recent one is dropped when the cache is full; an exception
    propagates and nothing is stored. *)

(** The arguments written positionally after [self], values of the annotated
    types: a prefix of the parameters. *)
Inductive Positional : Type :=
| Pos0
| Pos1 (word : string)
| Pos2 (word lang : string)
| Pos3 (word lang : string) (replace_tilde : bool)
| Pos4 (word lang : string) (replace_tilde return_full_json : bool)
| Pos5 (word lang : string)
       (replace_tilde return_full_json lemmatize_if_not_found : bool).

(** An argument written with the name of its parameter. *)
Inductive Keyword : Type :=
| kw_word (word : string)
| kw_lang (lang : string)
| kw_replace_tilde (replace_tilde : bool)
| kw_return_full_json (return_full_json : bool)
| kw_lemmatize_if_not_found (lemmatize_if_not_found : bool).

(** A call as written: [self.get_word(...)] for the client [self]. *)
Record Call : Type := mkCall {
  self : nat;
  positional : Positional;
  keywords : list Keyword
}.

#[global] Instance Positional_eq_dec : EqDecision Positional.
Proof. solve_decision. Defined.

#[global] Instance Keyword_eq_dec : EqDecision Keyword.
Proof. solve_decision. Defined.

#[global] Instance Call_eq_dec : EqDecision Call.
Proof. solve_decision. Defined.

(** The parameters of [get_word] after [self], filled or not. *)
Record Slots : Type := mkSlots {
  slot_word : option string;
  slot_lang : option string;
  slot_replace_tilde : option bool;
  slot_return_full_json : option bool;
  slot_lemmatize_if_not_found : option bool
}.

Definition positional_slots (arguments : Positional) : Slots :=
  match arguments with
  | Pos0 => mkSlots None None None None None
  | Pos1 word => mkSlots (Some word) None None None None
  | Pos2 word lang => mkSlots (Some word) (Some lang) None None None
  | Pos3 word lang replace_tilde =>
      mkSlots (Some word) (Some lang) (Some replace_tilde) None None
  | Pos4 word lang replace_tilde return_full_json =>
      mkSlots (Some word) (Some lang) (Some replace_tilde)
        (Some return_full_json) None
  | Pos5 word lang replace_tilde return_full_json lemmatize_if_not_found =>
      mkSlots (Some word) (Some lang) (Some replace_tilde)
        (Some return_full_json) (Some lemmatize_if_not_found)
  end.

(** A keyword fills its parameter; a parameter that has a value already
    makes the call fail ("got multiple values for argument"). *)
Definition keyword_slot (argument : Keyword) (slots : Slots) : option Slots :=
  match argument with
  | kw_word word =>
      match slot_word slots with
      | Some _ => None
      | None =>
          Some (mkSlots (Some word) (slot_lang slots)
                  (slot_replace_tilde slots) (slot_return_full_json slots)
                  (slot_lemmatize_if_not_found slots))
      end
  | kw_lang lang =>
      match slot_lang slots with
      | Some _ => None
      | None =>
          Some (mkSlots (slot_word slots) (Some lang)
                  (slot_replace_tilde slots) (slot_return_full_json slots)
                  (slot_lemmatize_if_not_found slots))
      end
  | kw_replace_tilde replace_tilde =>
      match slot_replace_tilde slots with
      | Some _ => None
      | None =>
          Some (mkSlots (slot_word slots) (slot_lang slots)
                  (Some replace_tilde) (slot_return_full_json slots)
                  (slot_lemmatize_if_not_found slots))
      end
  | kw_return_full_json return_full_json =>
      match slot_return_full_json slots with
      | Some _ => None
      | None =>
          Some (mkSlots (slot_word slots) (slot_lang slots)
                  (slot_replace_tilde slots) (Some return_full_json)
                  (slot_lemmatize_if_not_found slots))
      end
  | kw_lemmatize_if_not_found lemmatize_if_not_found =>
      match slot_lemmatize_if_not_found slots with
      | Some _ => None
      | None =>
          Some (mkSlots (slot_word slots) (slot_lang slots)
                  (slot_replace_tilde slots) (slot_return_full_json slots)
                  (Some lemmatize_if_not_found))
      end
  end.

Fixpoint keywords_slots (arguments : list Keyword) (slots : Slots)
    : option Slots :=
  match arguments with
  | [] => Some slots
  | argument :: arguments =>
      match keyword_slot argument slots with
      | Some slots => keywords_slots arguments slots
      | None => None
      end
  end.

(** The values the parameters are bound to: [word] is required, the others
    have the defaults of the signature.  [None] when the call does not bind,
    which Python answers with [TypeError]. *)
Definition bind_arguments (call : Call)
    : option (string * string * bool * bool * bool) :=
  match keywords_slots (keywords call) (positional_slots (positional call))
  with
  | Some slots =>
      match slot_word slots with
      | Some word =>
          Some (word,
                default "udm" (slot_lang slots),
                default false (slot_replace_tilde slots),
                default false (slot_return_full_json slots),
                default false (slot_lemmatize_if_not_found slots))
      | None => None
      end
  | None => None
  end.

(** The function under the decorator, applied to a call. *)
Definition user_function (call : Call) : M Payload WordResult :=
  match bind_arguments call with
  | Some (word, lang, replace_tilde, return_full_json,
          lemmatize_if_not_found) =>
      get_word word lang replace_tilde return_full_json
        lemmatize_if_not_found
  | None => raise TypeError
  end.

Definition maxsize : nat := 128.

(** The objects that were returned, by address; the entries of the cache,
    most recently used first, each the key and the address of its object; and
    the requests sent so far. *)
Record World : Type := mkWorld {
  objects : list WordResult;
  entries : list (Call * nat);
  traffic : list (Request Payload)
}.

Fixpoint cache_lookup (key : Call) (cache : list (Call * nat)) : option nat :=
  match cache with
  | [] => None
  | (k, address) :: rest =>
      if decide (k = key) then Some address else cache_lookup key rest
  end.

Fixpoint cache_remove (key : Call) (cache : list (Call * nat))
    : list (Call * nat) :=
  match cache with
  | [] => []
  | (k, address) :: rest =>
      if decide (k = key) then rest
      else (k, address) :: cache_remove key rest
  end.

(** The decorated [get_word]: what it returns is the address of an
    object. *)
Definition call (key : Call) (world : World) : Outcome nat * World :=
  match cache_lookup key (entries world) with
  | Some address =>
      (Return address,
       mkWorld (objects world)
         ((key, address) :: cache_remove key (entries world))
         (traffic world))
  | None =>
      match user_function key (traffic world) with
      | (Return result, log') =>
          let address := length (objects world) in
          (Return address,
           mkWorld (objects world ++ [result])
             (take maxsize ((key, address) :: entries world))
             log')
      | (Raise e, log') =>
          (Raise e, mkWorld (objects world) (entries world) log')
      | (OutOfFuel, log') =>
          (OutOfFuel, mkWorld (objects world) (entries world) log')
      end
  end.

(** What happens to the clients from outside: a call of [get_word], or a
    caller changing an object it was handed. *)
Inductive Event : Type :=
| Calls (key : Call)
| Changes (address : nat) (value : WordResult).

Definition step (world : World) (event : Event) : World :=
  match event with
  | Calls key => snd (call key world)
  | Changes address value =>
      mkWorld (<[address := value]> (objects world)) (entries world)
        (traffic world)
  end.

Definition run (events : list Event) (world : World) : World :=
  foldl step world events.

(** The calls among the events, and the calls among them that returned, in
    the order made. *)
Definition calls_of (events : list Event) : list Call :=
  omap (λ event, match event with Calls key => Some key | _ => None end)
       events.

(** The addresses of the objects callers changed. *)
Definition changes_of (events : list Event) : list nat :=
  omap (λ event,
          match event with Changes address _ => Some address | _ => None end)
       events.

Fixpoint returned (events : list Event) (world : World) : list Call :=
  match events with
  | [] => []
  | event :: events =>
      match event with
      | Calls key =>
          match fst (call key world) with
          | Return _ => [key]
          | _ => []
          end
      | Changes _ _ => []
      end ++ returned events (step world event)
  end.

(** The call [search_word] of the facade makes on its dictionary: all five
    arguments, positionally. *)
Definition search_word_call (dictionary : nat) (word lang : string)
    (replace_tilde return_full_json lemmatize_if_not_found : bool) : Call :=
  mkCall dictionary
    (Pos5 word lang replace_tilde return_full_json lemmatize_if_not_found) [].

(** A process that has made no call yet. *)
Definition fresh : World := mkWorld [] [] [].

End Client.

End Dictionary.

(** ** The corpus client *)

(** The values of the parameter dictionaries:
    [Dict[str, Union[int, bool]]]. *)
Inductive Value : Type :=
| VInt (n : Z)
| VBool (b : bool).

#[global] Instance Value_eq_dec : EqDecision Value.
Proof. solve_decision. Defined.

#[global] Instance Value_inhabited : Inhabited Value := populate (VBool false).

(** Truth value of a condition. *)
Definition truthy (v : Value) : bool :=
  match v with
  | VInt n => negb (n =? 0)
  | VBool b => b
  end.

(** The integer a value stands for in a comparison or as a slice bound
    ([bool] is a subclass of [int]). *)
Definition as_int (v : Value) : Z :=
  match v with
  | VInt n => n
  | VBool b => if b then 1 else 0
  end.

(** [l[:n]]: the first [n] elements, and for a negative [n] all but the last
    [-n]. *)
Definition slice_to {A} (l : list A) (n : Z) : list A :=
  if n <? 0
  then take (length l - Z.to_nat (- n))%nat l
  else take (Z.to_nat n) l.

Module Corpus.

(** [UdmurtCorpus.DEFAULT_PARAMS]. *)
Definition DEFAULT_PARAMS : gmap string Value :=
  <["count" := VInt 10]>
 (<["all_texts" := VBool false]>
 (<["return_full_json" := VBool false]>
 (<["full_compare" := VBool false]>
 (<["full_text_mode" := VBool false]>
 (<["page" := VInt 1]>
 (<["per_page" := VInt 10]>
 (<["rows_count" := VInt 0]> ∅))))))).

(** The ["type"] object of a search request. *)
Record CorpusType : Type := mkCorpusType {
  value : Z;
  type_title : string;
  name : string
}.

(** The body of a search request, field by field as
    [_build_search_payload] lays it out. *)
Record Payload : Type := mkPayload {
  searchMode : Z;
  word : option string;
  page : Value;
  perPage : Value;
  fullcompare : Value;
  text : option string;
  title : string;
  gr : list (string * list string);
  gloss : list string;
  startYear : option Z;
  endYear : option Z;
  theme : option string;
  type : CorpusType;
  authors : option string;
  rows : Value;
  compiledgr : string;
  compiledgloss : string
}.

(** One element of ["content"]. *)
Record ContentItem : Type := mkContentItem {
  body : string
}.

(** The JSON object the search endpoint answers with. *)
Record SearchPage : Type := mkSearchPage {
  totalElements : Z;
  last : bool;
  numberOfElements : Z;
  empty : bool;
  content : list ContentItem
}.

(** What [get_texts] returns: the text bodies, or the pages as received. *)
Inductive TextsResult : Type :=
| Texts (bodies : list string)
| FullPages (results : list SearchPage).

(** [kwargs.get(key, default)]. *)
Definition kwargs_get (kwargs : gmap string Value) (key : string)
    (default : Value) : Value :=
  match kwargs !! key with
  | Some v => v
  | None => default
  end.

(** [_build_search_payload(text, **kwargs)]. *)
Definition _build_search_payload (text : string) (kwargs : gmap string Value)
    : Payload :=
  let full_text_mode :=
    match kwargs !! "full_text_mode" with
    | Some v => truthy v
    | None => false
    end in
  {| searchMode := if full_text_mode then 1 else 0;
     word := if full_text_mode then None else Some text;
     page := kwargs_get kwargs "page" (VInt 1);
     perPage := kwargs_get kwargs "per_page" (VInt 10);
     fullcompare := kwargs_get kwargs "full_compare" (VBool false);
     text := if full_text_mode then Some text else None;
     title := "";
     gr := [("partOfSpeech", []); ("lexicalClasses", []);
            ("attributivizers", []); ("numerals", []); ("number", []);
            ("coreCases", []); ("spatialCases", []); ("spatialCases2", []);
            ("possessiveness", []); ("tense_mood", []);
            ("verbalDerivation", []); ("nonFiniteForms", []);
            ("imperatives", [])];
     gloss := [];
     startYear := None;
     endYear := None;
     theme := None;
     type := {| value := 0;
                type_title := "Корпус литературных текстов";
                name := "CORPUS" |};
     authors := None;
     rows := kwargs_get kwargs "rows_count" (VInt 0);
     compiledgr := "Грамматика не выбрана";
     compiledgloss := "Глоссы не выбраны" |}.

(** The first statements of [get_texts]: a copy of the defaults, updated
    with [params] unless [params] is [None] or empty. *)
Definition merge_params (params : option (gmap string Value))
    : gmap string Value :=
  match params with
  | Some params =>
      if bool_decide (params = ∅) then DEFAULT_PARAMS
      else params ∪ DEFAULT_PARAMS
  | None => DEFAULT_PARAMS
  end.

Section Client.

Variable upstream : Upstream Payload SearchPage.

(** [params[key]]. *)
Definition subscript (params : gmap string Value) (key : string)
    : M Payload Value :=
  match params !! key with
  | Some v => ret v
  | None => raise (KeyError key)
  end.

(** The [while] loop of [_fetch_texts].  [fuel] bounds the number of
    iterations; the loop condition is tested before the bound, so a loop that
    is not entered needs none. *)
Fixpoint fetch_loop (fuel : nat) (text : string) (params : gmap string Value)
    (total_elements : Z) (count : Value) (curr_page curr_elements : Z)
    (results : list SearchPage) : M Payload (list SearchPage) :=
  if curr_elements <? as_int count then
    match fuel with
    | O => out_of_fuel
    | S fuel' =>
        full_compare ← subscript params "full_compare";
        full_text_mode ← subscript params "full_text_mode";
        curr_res ← make_request upstream "search"
                     (_build_search_payload text
                        (<["full_compare" := full_compare]>
                        (<["full_text_mode" := full_text_mode]>
                        (<["page" := VInt curr_page]>
                        (<["rows_count" := VInt total_elements]> ∅)))));
        let curr_elements := curr_elements + numberOfElements curr_res in
        let is_last_page := last curr_res in
        let results := results ++ [curr_res] in
        if is_last_page
        then ret results
        else fetch_loop fuel' text params total_elements count
               (curr_page + 1) curr_elements results
    end
  else ret results.

(** [_fetch_texts]. *)
Definition _fetch_texts (fuel : nat) (text : string)
    (params : gmap string Value) : M Payload (list SearchPage * Value) :=
  full_compare ← subscript params "full_compare";
  full_text_mode ← subscript params "full_text_mode";
  first_res ← make_request upstream "search"
                (_build_search_payload text
                   (<["full_compare" := full_compare]>
                   (<["full_text_mode" := full_text_mode]> ∅)));
  let total_elements := totalElements first_res in
  let is_last_page := last first_res in
  let number_of_elements := numberOfElements first_res in
  let is_empty := empty first_res in
  let curr_elements := number_of_elements in
  count ← subscript params "count";
  if is_empty then ret ([], count)
  else if is_last_page then ret ([first_res], count)
  else
    all_texts ← subscript params "all_texts";
    let count := if truthy all_texts then VInt total_elements else count in
    results ← fetch_loop fuel text params total_elements count 2
                curr_elements [first_res];
    ret (results, count).

(** [get_texts].  [params] is [None] or a dictionary; an empty dictionary is
    falsy and skips the update, which would change nothing. *)
Definition get_texts (fuel : nat) (text : string)
    (params : option (gmap string Value)) : M Payload TextsResult :=
  let search_params := merge_params params in
  '(results, new_count) ← _fetch_texts fuel text search_params;
  if (length results =? 0)%nat then raise (TextsNotFoundError text)
  else
    return_full_json ← subscript search_params "return_full_json";
    if truthy return_full_json then ret (FullPages results)
    else ret (Texts (slice_to
                       (concat (map (λ page, map body (content page)) results))
                       (as_int new_count))).

End Client.

End Corpus.

(** ** Vocabulary of the properties *)

(** A call whose outcome is [Return] or [Raise] has finished. *)
Definition finished {A} (o : Outcome A) : bool :=
  match o with
  | OutOfFuel => false
  | _ => true
  end.

(** What [make_request] gets out of the service for a request sent after
    [log]: the JSON of a 200 answer, and nothing otherwise. *)
Definition answer {P J} (upstream : Upstream P J) (log : list (Request P))
    (request : Request P) : option J :=
  let response := upstream log request in
  if status_code response =? 200 then Some (json response) else None.

(** A service whose answers do not depend on the traffic before. *)
Definition stable {P J} (upstream : Upstream P J) : Prop :=
  ∀ log log' request, upstream log request = upstream log' request.

(** What [get_word] returns once it holds a non-empty response. *)
Definition finish (html_text : string → string)
    (response : list Dictionary.Item) (word : string)
    (replace_tilde return_full_json : bool) : Dictionary.WordResult :=
  if return_full_json then Dictionary.FullJson response
  else Dictionary.Translations
         (Dictionary._process_response html_text response word replace_tilde).

(** *** Statements of the dictionary client that the code does not meet *)

(** After a successful retry every tilde stands for the lemma. *)
Definition tilde_replaced_by_lemma (analyze_lemma html_text : string → string)
    (upstream : Upstream Dictionary.Payload (list Dictionary.Item))
    (word lang : string) (log : list (Request Dictionary.Payload)) : Prop :=
  ∀ language response,
    Dictionary.LANGUAGES !! lang = Some language →
    answer upstream log (Dictionary.search_request word language) = Some [] →
    analyze_lemma word ≠ "" →
    answer upstream (log ++ [Dictionary.search_request word language])
      (Dictionary.search_request (analyze_lemma word) language)
      = Some response →
    response ≠ [] →
    fst (Dictionary.get_word analyze_lemma html_text upstream
           word lang true false true log)
    = Return (Dictionary.Translations
                (map (λ item, str_replace tilde (analyze_lemma word)
                                (html_text (Dictionary.body item)))
                     response)).

(** The second of two successive calls written alike has the outcome of the
    first and sends nothing. *)
Definition second_call_is_silent (analyze_lemma html_text : string → string)
    (upstream : Upstream Dictionary.Payload (list Dictionary.Item))
    (key : Dictionary.Call) (world : Dictionary.World) : Prop :=
  ∀ o1 w1 o2 w2,
    Dictionary.call analyze_lemma html_text upstream key world = (o1, w1) →
    Dictionary.call analyze_lemma html_text upstream key w1 = (o2, w2) →
    o2 = o1 ∧ Dictionary.traffic w2 = Dictionary.traffic w1.

(** [key] is cached with the object at [address], and at most [n] entries
    of the cache were used more recently. *)
Definition cached_within (n : nat) (key : Dictionary.Call) (address : nat)
    (world : Dictionary.World) : Prop :=
  ∃ before after,
    Dictionary.entries world = before ++ (key, address) :: after
    ∧ (key ∉ before.*1)
    ∧ (length before ≤ n)%nat.

(** A text without the character [~]. *)
Definition tilde_free (text : string) : Prop :=
  ¬ In "~"%char (String.list_ascii_of_string text).

(** The keys of calls in the order of their last use, the most recent
    first. *)
Definition recency (calls : list Dictionary.Call) : list Dictionary.Call :=
  foldl (λ order key, key :: filter (λ k, k ≠ key) order) [] calls.

(** A cache every entry of which holds what the body returns for its
    key. *)
Definition coherent (analyze_lemma html_text : string → string)
    (upstream : Upstream Dictionary.Payload (list Dictionary.Item))
    (world : Dictionary.World) : Prop :=
  ∀ key address,
    Dictionary.cache_lookup key (Dictionary.entries world) = Some address →
    ∃ result,
      Dictionary.objects world !! address = Some result
      ∧ fst (Dictionary.user_function analyze_lemma html_text upstream key
               [])
        = Return result.

(** *** The corpus client *)

(** A dictionary that has the keys [_fetch_texts] and [get_texts] read. *)
Definition complete (search_params : gmap string Value) : Prop :=
  ∀ key, key ∈ ["full_compare"; "full_text_mode"; "count"; "all_texts";
                "return_full_json"] →
    search_params !! key = Some (search_params !!! key).

(** The keyword arguments of the first call of [_build_search_payload] and
    the request it makes. *)
Definition first_kwargs (search_params : gmap string Value)
    : gmap string Value :=
  <["full_compare" := search_params !!! "full_compare"]>
  (<["full_text_mode" := search_params !!! "full_text_mode"]> ∅).

Definition first_request (text : string) (search_params : gmap string Value)
    : Request Corpus.Payload :=
  mkRequest "search"
    (Corpus._build_search_payload text (first_kwargs search_params)).

(** The keyword arguments of the call in the loop and the request for page
    [curr_page]. *)
Definition page_kwargs (search_params : gmap string Value)
    (total_elements curr_page : Z) : gmap string Value :=
  <["full_compare" := search_params !!! "full_compare"]>
  (<["full_text_mode" := search_params !!! "full_text_mode"]>
  (<["page" := VInt curr_page]>
  (<["rows_count" := VInt total_elements]> ∅))).

Definition page_request (text : string) (search_params : gmap string Value)
    (total_elements curr_page : Z) : Request Corpus.Payload :=
  mkRequest "search"
    (Corpus._build_search_payload text
       (page_kwargs search_params total_elements curr_page)).

(** The requests for the pages [curr_page], [curr_page + 1], ... ([n] of
    them). *)
Definition page_requests (text : string) (search_params : gmap string Value)
    (total_elements curr_page : Z) (n : nat) : list (Request Corpus.Payload) :=
  map (λ k, page_request text search_params total_elements
              (curr_page + Z.of_nat k))
      (seq 0 n).

(** The effective target count: [totalElements] of the first page when
    [all_texts] is set and the first page is neither empty nor the last one,
    the requested [count] otherwise. *)
Definition effective_target (search_params : gmap string Value)
    (first : Corpus.SearchPage) : Z :=
  if truthy (search_params !!! "all_texts")
     && negb (Corpus.empty first) && negb (Corpus.last first)
  then Corpus.totalElements first
  else as_int (search_params !!! "count").

(** The text bodies of the pages, page after page. *)
Definition bodies (results : list Corpus.SearchPage) : list string :=
  concat (map (λ page, map Corpus.body (Corpus.content page)) results).

(** A service that answers the k-th request it sees with [pages k], whatever
    is asked (k from 1). *)
Definition scripted (pages : nat → Corpus.SearchPage)
    : Upstream Corpus.Payload Corpus.SearchPage :=
  λ log _, mkHttp 200 "" (pages (S (length log))).

(** [numberOfElements] summed over the pages 1 to [k]. *)
Fixpoint accumulated (pages : nat → Corpus.SearchPage) (k : nat) : Z :=
  match k with
  | O => 0
  | S k' => accumulated pages k' + Corpus.numberOfElements (pages k)
  end.

(** Page [N] is the first that reports [last]. *)
Definition first_last (pages : nat → Corpus.SearchPage) (N : nat) : Prop :=
  (1 ≤ N)%nat
  ∧ Corpus.last (pages N) = true
  ∧ ∀ k, (1 ≤ k < N)%nat → Corpus.last (pages k) = false.

(** [S] is page [N] or the first page after which the accumulated
    [numberOfElements] is at least [target], whichever comes first. *)
Definition stop_page (pages : nat → Corpus.SearchPage) (target : Z)
    (N S : nat) : Prop :=
  (1 ≤ S ≤ N)%nat
  ∧ (S = N ∨ target ≤ accumulated pages S)
  ∧ ∀ k, (1 ≤ k < S)%nat → accumulated pages k < target.

(** The page numbers of the requests of a log. *)
Definition requested_pages (log : list (Request Corpus.Payload))
    : list Value :=
  map (λ request, Corpus.page (payload request)) log.

(** The page numbers 1 to [S]. *)
Definition pages_up_to (S : nat) : list Value :=
  map (λ k, VInt (Z.of_nat k)) (seq 1 S).

(** *** Statements of the corpus client that the code does not meet *)

(** The pages 1, 2, ... are requested up to page [N] or the first page that
    reaches the target, whichever comes first. *)
Definition pagination_as_stated (pages : nat → Corpus.SearchPage)
    (text : string) (params : option (gmap string Value)) (N : nat) : Prop :=
  first_last pages N →
  ∃ S,
    stop_page pages
      (effective_target (Corpus.merge_params params) (pages 1%nat)) N S
    ∧ ∀ fuel, (N ≤ fuel)%nat →
        requested_pages
          (snd (Corpus._fetch_texts (scripted pages) fuel text
                  (Corpus.merge_params params) []))
        = pages_up_to S.

(** The result has no more items than the effective target count. *)
Definition truncated_as_stated
    (upstream : Upstream Corpus.Payload Corpus.SearchPage) (fuel : nat)
    (text : string) (params : option (gmap string Value))
    (log : list (Request Corpus.Payload)) : Prop :=
  ∀ first texts,
    answer upstream log (first_request text (Corpus.merge_params params))
      = Some first →
    truthy (Corpus.merge_params params !!! "return_full_json") = false →
    fst (Corpus.get_texts upstream fuel text params log)
      = Return (Corpus.Texts texts) →
    Z.of_nat (length texts)
      ≤ effective_target (Corpus.merge_params params) first.

(** *** A small dictionary to run the client on *)

Module DictionaryExample.
Import Dictionary.

(** Text extraction for the examples: what stands between [<] and [>] is
    dropped. *)
Fixpoint strip_tags_from (in_tag : bool) (html : string) : string :=
  match html with
  | EmptyString => EmptyString
  | String c rest =>
      if Ascii.eqb c "<" then strip_tags_from true rest
      else if Ascii.eqb c ">" then strip_tags_from false rest
      else if in_tag then strip_tags_from in_tag rest
      else String c (strip_tags_from in_tag rest)
  end.

Definition strip_tags : string → string := strip_tags_from false.

(** An analyzer that knows one inflected form. *)
Definition lemma_of (word : string) : string :=
  if String.eqb word "вуэз" then "ву" else "".

(** A service with entries for two search words; a search for ["ву"] also
    finds the entry of a longer word. *)
Definition entries (word : string) : list Item :=
  if String.eqb word "укно" then
    [mkItem "<p><b>укно</b> окно; ~ пиала оконное стекло</p>" "укно"]
  else if String.eqb word "ву" then
    [mkItem "<p><b>ву</b> вода; ~ дур берег</p>" "ву";
     mkItem "<p><b>вуж</b> старый; ~ дыр старина</p>" "вуж"]
  else [].

Definition service : Upstream Payload (list Item) :=
  λ _ request, mkHttp 200 "" (entries (word (payload request))).

Definition udm : Language := mkLanguage 1 "udm".

(** Lookups through the facade by two clients; the world after the first
    lookup of a fresh process, the events that follow, and the world after
    them and the first lookup repeated. *)
Definition window_call : Call :=
  search_word_call 0 "укно" "udm" true false false.

Definition water_call : Call :=
  search_word_call 1 "вуэз" "udm" true false true.

Definition missing_call : Call :=
  search_word_call 0 "asdfqwerty123" "udm" false false false.

Definition after_window : World :=
  mkWorld
    [Translations ["укно окно; укно пиала оконное стекло"]]
    [(window_call, 0%nat)]
    [search_request "укно" udm].

Definition water_events : list Event :=
  [Calls water_call;
   Changes 1 (Translations []);
   Calls missing_call].

Definition after_water : World :=
  mkWorld
    [Translations ["укно окно; укно пиала оконное стекло"];
     Translations []]
    [(window_call, 0%nat); (water_call, 1%nat)]
    [search_request "укно" udm;
     search_request "вуэз" udm;
     search_request "ву" udm;
     search_request "asdfqwerty123" udm].

End DictionaryExample.

(** *** Small corpora to run the client on *)

Module CorpusExample.
Import Corpus.

(** A page with the given texts. *)
Definition mkPage (total : Z) (is_last : bool) (texts : list string)
    : SearchPage :=
  {| totalElements := total;
     last := is_last;
     numberOfElements := Z.of_nat (length texts);
     empty := match texts with [] => true | _ => false end;
     content := map mkContentItem texts |}.

(** Five texts on three pages. *)
Definition three_pages (k : nat) : SearchPage :=
  match k with
  | 1%nat => mkPage 5 false ["a"; "b"]
  | 2%nat => mkPage 5 false ["c"; "d"]
  | _ => mkPage 5 true ["e"]
  end.

(** Three texts on one page. *)
Definition single_page (k : nat) : SearchPage :=
  mkPage 3 true ["a"; "b"; "c"].

(** A first page that reports [empty] and not [last], then a last page. *)
Definition hollow (k : nat) : SearchPage :=
  match k with
  | 1%nat => {| totalElements := 0; last := false; numberOfElements := 0;
                empty := true; content := [] |}
  | _ => mkPage 0 true []
  end.

End CorpusExample.

(** ** Vocabulary of the further properties *)

(** [numberOfElements] summed over a list of pages. *)
Definition total_number (pages : list Corpus.SearchPage) : Z :=
  foldr (λ page sum, Corpus.numberOfElements page + sum) 0 pages.

(** What [make_request] gets for [requests] sent one after the other after
    [log]. *)
Fixpoint answers {P J} (upstream : Upstream P J) (log : list (Request P))
    (requests : list (Request P)) : list (option J) :=
  match requests with
  | [] => []
  | request :: requests =>
      answer upstream log request
      :: answers upstream (log ++ [request]) requests
  end.

(** A page that counts what it holds. *)
Definition consistent (page : Corpus.SearchPage) : Prop :=
  Corpus.numberOfElements page = Z.of_nat (length (Corpus.content page)).

(** The fields of a search request that carry the query: the mode, the
    query in [word] or in [text], the comparison flag. *)
Definition carries_query (text : string) (search_params : gmap string Value)
    (request : Request Corpus.Payload) : Prop :=
  endpoint request = "search"
  ∧ Corpus.fullcompare (payload request) = search_params !!! "full_compare"
  ∧ if truthy (search_params !!! "full_text_mode")
    then Corpus.searchMode (payload request) = 1
         ∧ Corpus.word (payload request) = None
         ∧ Corpus.text (payload request) = Some text
    else Corpus.searchMode (payload request) = 0
         ∧ Corpus.word (payload request) = Some text
         ∧ Corpus.text (payload request) = None.

(** *** Further examples *)

Module MoreExamples.
Import Corpus.

(** A service that keeps answering with a page that holds nothing and is
    neither empty nor the last one. *)
Definition stuck (k : nat) : SearchPage :=
  {| totalElements := 5; last := false; numberOfElements := 0;
     empty := false; content := [] |}.

(** The first request is answered, the second is refused. *)
Definition failing : Upstream Payload SearchPage :=
  λ log _,
    match log with
    | [] => mkHttp 200 "" (CorpusExample.three_pages 1)
    | _ => mkHttp 503 "Service Unavailable" (CorpusExample.three_pages 2)
    end.

(** 128 lookups of 128 words through the facade. *)
Definition numbered_word (i : nat) : string :=
  String (ascii_of_nat (48 + i / 100))
    (String (ascii_of_nat (48 + i / 10 mod 10))
       (String (ascii_of_nat (48 + i mod 10)) EmptyString)).

Definition numbered_call (i : nat) : Dictionary.Call :=
  Dictionary.search_word_call 0 (numbered_word i) "udm" false false false.

Definition numbered_calls : list Dictionary.Event :=
  map (λ i, Dictionary.Calls (numbered_call i)) (seq 0 128).

(** A dictionary that has an entry for every word: the word itself. *)
Definition echo : Upstream Dictionary.Payload (list Dictionary.Item) :=
  λ _ request,
    mkHttp 200 ""
      [Dictionary.mkItem (Dictionary.word (payload request))
         (Dictionary.word (payload request))].

(** A dictionary service that refuses every request. *)
Definition refusing : Upstream Dictionary.Payload (list Dictionary.Item) :=
  λ _ _, mkHttp 503 "Service Unavailable" [].

(** An analyzer for which every word is its own lemma. *)
Definition own_lemma (word : string) : string := word.

End MoreExamples.

(** * Properties *)

(** ** Facts about the strings *)

Lemma str_app_cons c (a b : string) : String c a +:+ b = String c (a +:+ b).
Proof. reflexivity. Qed.

Lemma str_app_assoc (a b c : string) : (a +:+ b) +:+ c = a +:+ (b +:+ c).
Proof.
  induction a as [|x a IH]; [done|].
  rewrite !str_app_cons. by f_equal.
Qed.

Lemma str_contains_app ch a b :
  str_contains ch (a +:+ b) = str_contains ch a || str_contains ch b.
Proof.
  induction a as [|c a IH]; [done|].
  rewrite str_app_cons. simpl. rewrite IH. by rewrite orb_assoc.
Qed.

(** Replacement works piece by piece. *)
Lemma str_replace_app old new a b :
  str_replace old new (a +:+ b)
  = str_replace old new a +:+ str_replace old new b.
Proof.
  induction a as [|c a IH]; [done|].
  rewrite str_app_cons. simpl. rewrite IH.
  destruct (Ascii.eqb c old); [|done].
  by rewrite str_app_assoc.
Qed.

(** A text without the character is left as it is. *)
Lemma str_replace_absent old new text :
  str_contains old text = false → str_replace old new text = text.
Proof.
  induction text as [|c text IH]; simpl; [done|].
  intros [Hc Ht]%orb_false_iff. rewrite Hc. by rewrite IH.
Qed.

(** When the replacement does not contain the character, neither does the
    result: no occurrence survives. *)
Lemma str_replace_removes old new text :
  str_contains old new = false →
  str_contains old (str_replace old new text) = false.
Proof.
  intros Hnew. induction text as [|c text IH]; simpl; [done|].
  destruct (Ascii.eqb c old) eqn:Hc; simpl.
  - by rewrite str_contains_app, Hnew, IH.
  - by rewrite Hc, IH.
Qed.

(** [str_contains] is membership among the characters. *)
Lemma str_contains_In ch text :
  str_contains ch text = false
  ↔ ¬ In ch (String.list_ascii_of_string text).
Proof.
  induction text as [|c text IH]; cbn [str_contains String.list_ascii_of_string In].
  - split; [by intros _ []|done].
  - rewrite orb_false_iff, IH, Ascii.eqb_neq. tauto.
Qed.

Lemma str_concat_cons sep piece piece' pieces :
  String.concat sep (piece :: piece' :: pieces)
  = piece +:+ sep +:+ String.concat sep (piece' :: pieces).
Proof. reflexivity. Qed.

(** Replacing the separator of pieces that do not hold it joins the same
    pieces with the replacement: [str_replace] keeps what stands between the
    occurrences and puts the replacement where each occurrence stood. *)
Lemma str_replace_concat old new pieces :
  Forall (λ piece, ¬ In old (String.list_ascii_of_string piece)) pieces →
  str_replace old new (String.concat (String old EmptyString) pieces)
  = String.concat new pieces.
Proof.
  induction 1 as [|piece pieces Hpiece Hpieces IH]; [done|].
  destruct pieces as [|piece' pieces].
  - cbn [String.concat]. by apply str_replace_absent, str_contains_In.
  - rewrite !str_concat_cons, !str_replace_app, IH.
    rewrite (str_replace_absent old new piece) by by apply str_contains_In.
    f_equal. cbn [str_replace]. rewrite Ascii.eqb_refl.
    by rewrite str_app_assoc.
Qed.

(** Every text is pieces without [~] joined by [~]. *)
Lemma tilde_pieces text :
  ∃ piece pieces,
    Forall tilde_free (piece :: pieces)
    ∧ text = String.concat "~" (piece :: pieces).
Proof.
  induction text as [|c text (piece & pieces & Hfree & ->)].
  - exists "", []. split; [|done]. constructor; [by intros []|done].
  - destruct (Ascii.eqb_spec c "~") as [->|Hc].
    + exists "", (piece :: pieces). split; [|done].
      constructor; [by intros []|done].
    + exists (String c piece), pieces.
      apply Forall_cons in Hfree as [Hpiece Hpieces]. split.
      * constructor; [|done]. intros [Hin|Hin]; [by subst|by apply Hpiece].
      * by destruct pieces.
Qed.

(** ** Facts about [make_request] *)

Lemma make_request_answer {P J} (upstream : Upstream P J) endpoint payload log :
  make_request upstream endpoint payload log
  = (match answer upstream log (mkRequest endpoint payload) with
     | Some j => Return j
     | None =>
         let response := upstream log (mkRequest endpoint payload) in
         Raise (APIError (status_code response) (Http.text response))
     end, log ++ [mkRequest endpoint payload]).
Proof.
  unfold make_request, answer. simpl.
  by destruct (status_code _ =? 200).
Qed.

(** From here on [make_request] is used through this equation only. *)
#[global] Opaque make_request.

(** ** Facts about the dictionary client *)

Module DictionaryFacts.
Import Dictionary.

Lemma LANGUAGES_lookup lang :
  LANGUAGES !! lang =
    if decide (lang = "udm") then Some (mkLanguage 1 "udm")
    else if decide (lang = "rus") then Some (mkLanguage 2 "rus")
    else None.
Proof.
  unfold LANGUAGES.
  repeat case_decide; subst; by simplify_map_eq.
Qed.

Lemma is_empty_true response : is_empty response = true ↔ response = [].
Proof. by destruct response. Qed.

Section Facts.

Variable analyze_lemma : string → string.
Variable html_text : string → string.
Variable upstream : Upstream Payload (list Item).

Local Abbreviation get_word :=
  (Dictionary.get_word analyze_lemma html_text upstream).
Local Abbreviation _process_response :=
  (Dictionary._process_response html_text).
Local Abbreviation finish := (finish html_text).

(** The control flow of [get_word] for a supported language, in terms of
    what the service answers. *)
Lemma get_word_cases word lang language replace_tilde return_full_json
    lemmatize_if_not_found log :
  LANGUAGES !! lang = Some language →
  let req1 := search_request word language in
  let req2 := search_request (analyze_lemma word) language in
  let api_error log request :=
    Raise (APIError (status_code (upstream log request))
             (Http.text (upstream log request))) in
  get_word word lang replace_tilde return_full_json lemmatize_if_not_found log
  = match answer upstream log req1 with
    | None => (api_error log req1, log ++ [req1])
    | Some (item :: items) =>
        (Return (finish (item :: items) word replace_tilde return_full_json),
         log ++ [req1])
    | Some [] =>
        if lemmatize_if_not_found && negb (String.eqb (analyze_lemma word) "")
        then
          match answer upstream (log ++ [req1]) req2 with
          | None => (api_error (log ++ [req1]) req2, log ++ [req1; req2])
          | Some [] => (Raise (WordNotFoundError word), log ++ [req1; req2])
          | Some (item :: items) =>
              (Return (finish (item :: items) (analyze_lemma word)
                         replace_tilde return_full_json),
               log ++ [req1; req2])
          end
        else (Raise (WordNotFoundError word), log ++ [req1])
    end.
Proof.
  intros Hlang. simpl. unfold Dictionary.get_word. rewrite Hlang.
  unfold mbind, M_bind, bind. rewrite make_request_answer.
  fold (search_request word language).
  destruct (answer upstream log _) as [[|item items]|]; simpl; try done.
  - destruct lemmatize_if_not_found; simpl; [|done].
    destruct (negb _); simpl; [|done].
    unfold bind. rewrite make_request_answer.
    fold (search_request (analyze_lemma word) language).
    rewrite <- app_assoc. simpl.
    destruct (answer upstream (log ++ _) _) as [[|item items]|]; simpl;
      try done.
    unfold finish. by destruct return_full_json.
  - unfold finish. by destruct return_full_json.
Qed.

(** For an unsupported language nothing is sent. *)
Lemma get_word_unsupported word lang replace_tilde return_full_json
    lemmatize_if_not_found log :
  LANGUAGES !! lang = None →
  get_word word lang replace_tilde return_full_json lemmatize_if_not_found log
  = (Raise (ValueError lang), log).
Proof. intros Hlang. unfold Dictionary.get_word. by rewrite Hlang. Qed.

(** C5: a language code other than [udm] and [rus] makes [get_word] raise
    [ValueError] with the log of requests unchanged, so nothing was sent;
    [udm] and [rus] resolve to the identifiers 1 and 2, and for them the
    lookup goes on: the request for the word with that identifier is sent. *)
Theorem get_word_language word lang replace_tilde return_full_json
    lemmatize_if_not_found log :
  (lang ∉ ["udm"; "rus"] →
     get_word word lang replace_tilde return_full_json lemmatize_if_not_found
       log = (Raise (ValueError lang), log))
  ∧ id <$> LANGUAGES !! "udm" = Some 1
  ∧ id <$> LANGUAGES !! "rus" = Some 2
  ∧ (lang ∈ ["udm"; "rus"] →
     ∃ language outcome rest,
       LANGUAGES !! lang = Some language
       ∧ get_word word lang replace_tilde return_full_json
           lemmatize_if_not_found log
         = (outcome, log ++ search_request word language :: rest)).
Proof.
  split_and!.
  - intros Hlang. apply get_word_unsupported. rewrite LANGUAGES_lookup.
    repeat case_decide; subst; try done; exfalso; apply Hlang; set_solver.
  - by rewrite LANGUAGES_lookup.
  - by rewrite LANGUAGES_lookup.
  - intros Hlang.
    assert (∃ language, LANGUAGES !! lang = Some language) as [language Hl].
    { rewrite LANGUAGES_lookup. repeat case_decide; eauto.
      exfalso. repeat (apply elem_of_cons in Hlang as [Hlang|Hlang]; [done|]).
      by apply elem_of_nil in Hlang. }
    exists language. rewrite (get_word_cases _ _ language) by done.
    destruct (answer upstream log _) as [[|item items]|];
      [|by eexists _, []..].
    destruct (_ && _); [|by eexists _, []].
    destruct (answer upstream (log ++ _) _) as [[|item' items']|];
      by eexists _, [_].
Qed.

(** C6: [get_word] never sends more than two requests.  When the first
    response is an empty array: without [lemmatize_if_not_found] it raises
    [WordNotFoundError] after that one request; with it and an empty lemma it
    raises [WordNotFoundError] without a second request; with a non-empty
    lemma it sends exactly one more request, for the lemma, and raises
    [WordNotFoundError] exactly when that one is answered with an empty array
    too. *)
Theorem get_word_lemma_fallback word lang language replace_tilde
    return_full_json lemmatize_if_not_found log :
  let req1 := search_request word language in
  let req2 := search_request (analyze_lemma word) language in
  let run :=
    get_word word lang replace_tilde return_full_json lemmatize_if_not_found
      log in
  (length (snd run) ≤ length log + 2)%nat
  ∧ (LANGUAGES !! lang = Some language →
     answer upstream log req1 = Some [] →
     (lemmatize_if_not_found = false →
        run = (Raise (WordNotFoundError word), log ++ [req1]))
     ∧ (lemmatize_if_not_found = true → analyze_lemma word = "" →
        run = (Raise (WordNotFoundError word), log ++ [req1]))
     ∧ (lemmatize_if_not_found = true → analyze_lemma word ≠ "" →
        snd run = log ++ [req1; req2]
        ∧ (fst run = Raise (WordNotFoundError word)
           ↔ answer upstream (log ++ [req1]) req2 = Some []))).
Proof.
  simpl. split.
  - destruct (LANGUAGES !! lang) as [language'|] eqn:Hlang.
    + rewrite (get_word_cases _ _ language') by done.
      repeat (case_match; simpl); rewrite ?length_app; simpl; lia.
    + rewrite get_word_unsupported by done. simpl. lia.
  - intros Hlang Hfirst. rewrite (get_word_cases _ _ language) by done.
    rewrite Hfirst. split_and!.
    + by intros ->.
    + intros -> ->. done.
    + intros -> Hlemma.
      assert (String.eqb (analyze_lemma word) "" = false) as ->
        by by apply String.eqb_neq.
      simpl. destruct (answer upstream (log ++ _) _) as [[|item items]|];
        simpl; (split; [done|]); split; congruence.
Qed.

(** The strings [_process_response] makes of a response. *)
Lemma _process_response_spec response word replace_tilde :
  let texts := _process_response response word replace_tilde in
  texts
  = map (λ item,
           if replace_tilde
           then str_replace tilde (srcWord item) (html_text (body item))
           else html_text (body item))
        response
  ∧ length texts = length response
  ∧ (replace_tilde = true →
     Forall (λ item, str_contains tilde (srcWord item) = false) response →
     Forall (λ text, str_contains tilde text = false) texts).
Proof.
  cbn zeta. unfold Dictionary._process_response. split_and!.
  - apply map_ext. intros item. by destruct replace_tilde.
  - by rewrite length_map.
  - intros -> Hsrc. apply Forall_map. eapply Forall_impl; [exact Hsrc|].
    intros item Hitem. simpl. by apply str_replace_removes.
Qed.

(** The string made of one item, without reference to [str_replace]: the
    text of the item is pieces without [~] joined by [~], and the string is
    the same pieces joined by the item's [srcWord]. *)
Lemma _process_response_pieces response word replace_tilde i item :
  response !! i = Some item →
  ∃ pieces,
    Forall tilde_free pieces
    ∧ html_text (body item) = String.concat "~" pieces
    ∧ _process_response response word replace_tilde !! i
      = Some (if replace_tilde
              then String.concat (srcWord item) pieces
              else html_text (body item)).
Proof.
  intros Hitem.
  destruct (tilde_pieces (html_text (body item)))
    as (piece & pieces & Hfree & Htext).
  exists (piece :: pieces). split_and!; [done..|].
  unfold Dictionary._process_response.
  rewrite list_lookup_fmap, Hitem. cbn [fmap option_fmap option_map].
  destruct replace_tilde; [|done].
  rewrite Htext at 1. unfold tilde. by rewrite str_replace_concat.
Qed.

Lemma _process_response_tilde_free response word :
  Forall (λ item, tilde_free (srcWord item)) response →
  Forall tilde_free (_process_response response word true).
Proof.
  intros Hsrc. unfold Dictionary._process_response.
  apply Forall_map. eapply Forall_impl; [exact Hsrc|].
  intros item Hitem. cbn beta zeta. apply str_contains_In.
  by apply str_replace_removes, str_contains_In.
Qed.

(** [_process_response] does not read its [word]. *)
Lemma _process_response_word response word word' replace_tilde :
  _process_response response word replace_tilde
  = _process_response response word' replace_tilde.
Proof. reflexivity. Qed.

(** A first response that is not empty is what [get_word] works on. *)
Lemma get_word_first word lang language replace_tilde return_full_json
    lemmatize_if_not_found log response :
  LANGUAGES !! lang = Some language →
  answer upstream log (search_request word language) = Some response →
  response ≠ [] →
  get_word word lang replace_tilde return_full_json lemmatize_if_not_found log
  = (Return (finish response word replace_tilde return_full_json),
     log ++ [search_request word language]).
Proof.
  intros Hlang Hfirst Hne.
  rewrite (get_word_cases _ _ language) by done. rewrite Hfirst.
  by destruct response.
Qed.

(** After an empty first response, a retry that is answered with a non-empty
    array is what [get_word] works on, with the lemma as its word. *)
Lemma get_word_retry word lang language replace_tilde return_full_json log
    response :
  LANGUAGES !! lang = Some language →
  answer upstream log (search_request word language) = Some [] →
  analyze_lemma word ≠ "" →
  answer upstream (log ++ [search_request word language])
    (search_request (analyze_lemma word) language) = Some response →
  response ≠ [] →
  get_word word lang replace_tilde return_full_json true log
  = (Return (finish response (analyze_lemma word) replace_tilde
               return_full_json),
     log ++ [search_request word language;
             search_request (analyze_lemma word) language]).
Proof.
  intros Hlang Hfirst Hlemma Hretry Hne.
  rewrite (get_word_cases _ _ language) by done. rewrite Hfirst.
  assert (String.eqb (analyze_lemma word) "" = false) as ->
    by by apply String.eqb_neq.
  simpl. rewrite Hretry. by destruct response.
Qed.

(** C7: when the response [get_word] works on, the first one or, after an
    empty first one, that of the retry with the lemma, is a non-empty array
    and [return_full_json] is false, [get_word] returns one string for each
    item, in the order of the response.  The text of the item's body is
    pieces without [~] joined by [~]: when [replace_tilde] is true the string
    is the same pieces joined by the [srcWord] of that same item, so that
    every [~] is replaced and the rest is kept; otherwise it is the text as
    it is.  When [replace_tilde] is true and no [srcWord] contains [~], no
    returned string contains [~]. *)
Theorem get_word_translations word lang language replace_tilde
    lemmatize_if_not_found log response :
  let req1 := search_request word language in
  let req2 := search_request (analyze_lemma word) language in
  LANGUAGES !! lang = Some language →
  response ≠ [] →
  answer upstream log req1 = Some response
  ∨ (answer upstream log req1 = Some []
     ∧ lemmatize_if_not_found = true
     ∧ analyze_lemma word ≠ ""
     ∧ answer upstream (log ++ [req1]) req2 = Some response) →
  ∃ texts,
    fst (get_word word lang replace_tilde false lemmatize_if_not_found log)
    = Return (Translations texts)
    ∧ length texts = length response
    ∧ (∀ i item,
         response !! i = Some item →
         ∃ pieces,
           Forall tilde_free pieces
           ∧ html_text (body item) = String.concat "~" pieces
           ∧ texts !! i
             = Some (if replace_tilde
                     then String.concat (srcWord item) pieces
                     else html_text (body item)))
    ∧ (replace_tilde = true →
       Forall (λ item, tilde_free (srcWord item)) response →
       Forall tilde_free texts).
Proof.
  cbn zeta. intros Hlang Hne [Hfirst|(Hfirst & -> & Hlemma & Hretry)].
  - exists (_process_response response word replace_tilde). split_and!.
    + by rewrite (get_word_first _ _ language _ _ _ _ response).
    + apply _process_response_spec.
    + intros i item. apply _process_response_pieces.
    + intros ->. apply _process_response_tilde_free.
  - exists (_process_response response (analyze_lemma word) replace_tilde).
    split_and!.
    + by rewrite (get_word_retry _ _ language _ _ _ response).
    + apply _process_response_spec.
    + intros i item. apply _process_response_pieces.
    + intros ->. apply _process_response_tilde_free.
Qed.

(** C8, as the code has it: when the retry with the lemma succeeds and
    [replace_tilde] is true, [get_word] has sent the request for the word and
    the request for the lemma, and what replaces the tildes of a returned
    string is the [srcWord] of the item of the retry response the string
    comes from, whatever the lemma and the original word are: the text of the
    item is pieces without [~] joined by [~], and the string is the same
    pieces joined by that [srcWord]. *)
Theorem get_word_fallback_tilde word lang language log response :
  let req1 := search_request word language in
  let req2 := search_request (analyze_lemma word) language in
  LANGUAGES !! lang = Some language →
  answer upstream log req1 = Some [] →
  analyze_lemma word ≠ "" →
  answer upstream (log ++ [req1]) req2 = Some response →
  response ≠ [] →
  ∃ texts,
    get_word word lang true false true log
    = (Return (Translations texts), log ++ [req1; req2])
    ∧ length texts = length response
    ∧ ∀ i item,
        response !! i = Some item →
        ∃ pieces,
          Forall tilde_free pieces
          ∧ html_text (body item) = String.concat "~" pieces
          ∧ texts !! i = Some (String.concat (srcWord item) pieces).
Proof.
  cbn zeta. intros Hlang Hfirst Hlemma Hretry Hne.
  exists (_process_response response (analyze_lemma word) true). split_and!.
  - by rewrite (get_word_retry _ _ language _ _ _ response).
  - apply _process_response_spec.
  - intros i item Hitem.
    by apply (_process_response_pieces response (analyze_lemma word) true).
Qed.

(** *** The cache *)

Local Abbreviation user_function :=
  (Dictionary.user_function analyze_lemma html_text upstream).
Local Abbreviation call := (Dictionary.call analyze_lemma html_text upstream).
Local Abbreviation step := (Dictionary.step analyze_lemma html_text upstream).
Local Abbreviation run := (Dictionary.run analyze_lemma html_text upstream).
Local Abbreviation returned :=
  (Dictionary.returned analyze_lemma html_text upstream).

Lemma answer_stable log log' request :
  stable upstream → answer upstream log request = answer upstream log' request.
Proof. intros Hstable. unfold answer. by rewrite (Hstable log log'). Qed.

(** Against a stable service the outcome of the body and the requests it
    sends do not depend on the traffic before. *)
Lemma get_word_stable word lang replace_tilde return_full_json
    lemmatize_if_not_found log :
  stable upstream →
  let run log :=
    get_word word lang replace_tilde return_full_json lemmatize_if_not_found
      log in
  run log = (fst (run []), log ++ snd (run [])).
Proof.
  intros Hstable. simpl.
  destruct (LANGUAGES !! lang) as [language|] eqn:Hlang.
  - rewrite !(get_word_cases _ _ language) by done.
    set (req1 := search_request word language).
    set (req2 := search_request (analyze_lemma word) language).
    rewrite (answer_stable log [] req1) by done.
    rewrite (answer_stable (log ++ [req1]) ([] ++ [req1]) req2) by done.
    rewrite (Hstable log [] req1).
    rewrite (Hstable (log ++ [req1]) ([] ++ [req1]) req2).
    destruct (answer upstream [] req1) as [[|item items]|]; try done.
    destruct (_ && _); [|done].
    by destruct (answer upstream ([] ++ [req1]) req2) as [[|item' items']|].
  - rewrite !get_word_unsupported by done. simpl. by rewrite app_nil_r.
Qed.

(** The body always finishes, and only adds to the traffic. *)
Lemma get_word_finished word lang replace_tilde return_full_json
    lemmatize_if_not_found log :
  finished (fst (get_word word lang replace_tilde return_full_json
                   lemmatize_if_not_found log)) = true.
Proof.
  destruct (LANGUAGES !! lang) as [language|] eqn:Hlang.
  - rewrite (get_word_cases _ _ language) by done. cbn zeta.
    destruct (answer upstream log _) as [[|item items]|]; try done.
    destruct (_ && _); [|done].
    by destruct (answer upstream (log ++ _) _) as [[|item' items']|].
  - by rewrite get_word_unsupported.
Qed.

Lemma user_function_finished key log :
  finished (fst (user_function key log)) = true.
Proof.
  unfold Dictionary.user_function.
  destruct (bind_arguments key) as [[[[[word lang] rt] rf] lem]|]; [|done].
  apply get_word_finished.
Qed.

Lemma user_function_stable key log :
  stable upstream →
  user_function key log
  = (fst (user_function key []), log ++ snd (user_function key [])).
Proof.
  intros Hstable. unfold Dictionary.user_function.
  destruct (bind_arguments key) as [[[[[word lang] rt] rf] lem]|].
  - by apply get_word_stable.
  - cbn. by rewrite app_nil_r.
Qed.

(** **** Looking up and removing entries *)

Lemma cache_lookup_elem_of key cache address :
  cache_lookup key cache = Some address → key ∈ cache.*1.
Proof.
  induction cache as [|[k a] cache IH]; [done|]. cbn.
  destruct (decide (k = key)) as [->|Hne].
  - intros _. apply elem_of_cons. by left.
  - intros Hlookup. apply elem_of_cons. right. by apply IH.
Qed.

Lemma cache_lookup_None key cache :
  cache_lookup key cache = None ↔ key ∉ cache.*1.
Proof.
  induction cache as [|[k a] cache IH]; cbn.
  - split; [|done]. intros _ Hin. by apply elem_of_nil in Hin.
  - rewrite not_elem_of_cons. destruct (decide (k = key)) as [->|Hne].
    + split; [done|]. by intros [? _].
    + rewrite IH. split; [|by intros [_ ?]]. intros Hnot. split; [|done].
      by intros ->.
Qed.

Lemma cache_lookup_app key address before after :
  key ∉ before.*1 →
  cache_lookup key (before ++ (key, address) :: after) = Some address.
Proof.
  induction before as [|[k a] before IH]; cbn.
  - intros _. by rewrite decide_True.
  - rewrite not_elem_of_cons. intros [Hne Hnot].
    rewrite decide_False by done. by apply IH.
Qed.

Lemma cache_lookup_remove_ne key k cache :
  k ≠ key →
  cache_lookup k (cache_remove key cache) = cache_lookup k cache.
Proof.
  intros Hne. induction cache as [|[k' a] cache IH]; [done|]. cbn.
  destruct (decide (k' = key)) as [->|Hne'].
  - by rewrite decide_False.
  - cbn. by destruct (decide (k' = k)).
Qed.

Lemma cache_lookup_take key n cache address :
  cache_lookup key (take n cache) = Some address →
  cache_lookup key cache = Some address.
Proof.
  revert n. induction cache as [|[k a] cache IH]; intros [|n]; try done.
  cbn. destruct (decide (k = key)); [done|]. apply IH.
Qed.

Lemma cache_remove_length key cache address :
  cache_lookup key cache = Some address →
  S (length (cache_remove key cache)) = length cache.
Proof.
  induction cache as [|[k a] cache IH]; [done|]. cbn.
  destruct (decide (k = key)); [done|]. cbn. intros Hlookup.
  by rewrite IH.
Qed.

Lemma cache_remove_elem_of entry key cache :
  entry ∈ cache_remove key cache → entry ∈ cache.
Proof.
  induction cache as [|[k a] cache IH]; [done|]. cbn.
  destruct (decide (k = key)).
  - intros Hin. apply elem_of_cons. by right.
  - rewrite !elem_of_cons. intros [->|Hin]; [by left|]. right. by apply IH.
Qed.

Lemma cache_lookup_entry key cache address :
  cache_lookup key cache = Some address → (key, address) ∈ cache.
Proof.
  induction cache as [|[k a] cache IH]; [done|]. cbn.
  destruct (decide (k = key)) as [->|Hne].
  - intros [= ->]. apply elem_of_cons. by left.
  - intros Hlookup. apply elem_of_cons. right. by apply IH.
Qed.

(** Removing another key leaves an entry where it is or moves it one place
    towards the front. *)
Lemma cache_remove_split k key address before after :
  k ≠ key →
  key ∉ before.*1 →
  ∃ before' after',
    cache_remove k (before ++ (key, address) :: after)
    = before' ++ (key, address) :: after'
    ∧ (key ∉ before'.*1)
    ∧ (length before' ≤ length before)%nat.
Proof.
  intros Hne. induction before as [|[k' a'] before IH]; cbn.
  - intros _. rewrite decide_False by done.
    exists [], (cache_remove k after). split_and!; [done| |done].
    apply not_elem_of_nil.
  - rewrite not_elem_of_cons. intros [Hne' Hnot].
    destruct (decide (k' = k)) as [->|Hne''].
    + exists before, after. split_and!; [done..|lia].
    + destruct (IH Hnot) as (before' & after' & -> & Hnot' & Hlength).
      exists ((k', a') :: before'), after'. cbn. split_and!; [done| |lia].
      rewrite not_elem_of_cons. by split.
Qed.

(** **** One call *)

Lemma call_hit key world address :
  cache_lookup key (entries world) = Some address →
  call key world
  = (Return address,
     mkWorld (objects world) ((key, address) :: cache_remove key (entries world))
       (traffic world)).
Proof. intros Hlookup. unfold Dictionary.call. by rewrite Hlookup. Qed.

Lemma call_miss key world :
  cache_lookup key (entries world) = None →
  call key world
  = match user_function key (traffic world) with
    | (Return result, log') =>
        (Return (length (objects world)),
         mkWorld (objects world ++ [result])
           (take maxsize ((key, length (objects world)) :: entries world))
           log')
    | (Raise e, log') =>
        (Raise e, mkWorld (objects world) (entries world) log')
    | (OutOfFuel, log') =>
        (OutOfFuel, mkWorld (objects world) (entries world) log')
    end.
Proof. intros Hlookup. unfold Dictionary.call. by rewrite Hlookup. Qed.

(** What a call leaves behind: a returned object is cached as the most
    recent entry; an exception is that of the body, and nothing is cached. *)
Lemma call_cases key world o w :
  call key world = (o, w) →
  match o with
  | Return address =>
      cached_within 0 key address w
      ∧ (cache_lookup key (entries world) = Some address
         ∧ objects w = objects world
         ∧ traffic w = traffic world
         ∨ cache_lookup key (entries world) = None
           ∧ address = length (objects world)
           ∧ ∃ result,
               user_function key (traffic world) = (Return result, traffic w)
               ∧ objects w = objects world ++ [result])
  | Raise e =>
      cache_lookup key (entries world) = None
      ∧ user_function key (traffic world) = (Raise e, traffic w)
      ∧ entries w = entries world
      ∧ objects w = objects world
  | OutOfFuel => False
  end.
Proof.
  destruct (cache_lookup key (entries world)) as [address|] eqn:Hlookup.
  - rewrite (call_hit _ _ address) by done. intros [= <- <-]. split.
    + exists [], (cache_remove key (entries world)).
      split_and!; [done| |done]. apply not_elem_of_nil.
    + by left.
  - rewrite call_miss by done.
    pose proof (user_function_finished key (traffic world)) as Hfinished.
    destruct (user_function key (traffic world)) as [[result|e|] log'];
      [| |done].
    + intros [= <- <-]. split.
      * exists [], (take 127 (entries world)).
        split_and!; [done| |done]. apply not_elem_of_nil.
      * right. by eauto.
    + by intros [= <- <-].
Qed.

(** **** Invariants of the cache *)

Lemma run_invariant (P : World → Prop) :
  (∀ world event, P world → P (step world event)) →
  ∀ events world, P world → P (run events world).
Proof.
  intros Hstep events. induction events as [|event events IH]; [done|].
  intros world HP. cbn. apply IH. by apply Hstep.
Qed.

Lemma run_app events events' world :
  run (events ++ events') world = run events' (run events world).
Proof. unfold Dictionary.run. by rewrite foldl_app. Qed.

(** The cache never holds more than [maxsize] entries. *)
Lemma step_entries_length world event :
  (length (entries world) ≤ maxsize)%nat →
  (length (entries (step world event)) ≤ maxsize)%nat.
Proof.
  intros Hlength. destruct event as [key|address value]; [|done]. cbn.
  destruct (cache_lookup key (entries world)) as [address|] eqn:Hlookup.
  - rewrite (call_hit _ _ address) by done. cbn.
    by rewrite (cache_remove_length _ _ address).
  - rewrite call_miss by done.
    destruct (user_function key (traffic world)) as [[result|e|] log'];
      [|done..].
    cbn [snd entries]. rewrite length_take. lia.
Qed.

Lemma run_entries_length events :
  (length (entries (run events fresh)) ≤ maxsize)%nat.
Proof.
  apply (run_invariant (λ world, (length (entries world) ≤ maxsize)%nat)).
  - apply step_entries_length.
  - cbn. unfold maxsize. lia.
Qed.

(** Every entry points to an object of the store. *)
Lemma step_addresses world event :
  Forall (λ entry, (entry.2 < length (objects world))%nat) (entries world) →
  Forall (λ entry, (entry.2 < length (objects (step world event)))%nat)
    (entries (step world event)).
Proof.
  intros Hwf. destruct event as [key|address value]; cbn.
  - destruct (cache_lookup key (entries world)) as [address|] eqn:Hlookup.
    + rewrite (call_hit _ _ address) by done. cbn.
      rewrite Forall_forall in Hwf. apply Forall_cons. split.
      * by apply (Hwf (key, address)), cache_lookup_entry.
      * apply Forall_forall. intros entry Hin.
        by eapply Hwf, cache_remove_elem_of.
    + rewrite call_miss by done.
      destruct (user_function key (traffic world)) as [[result|e|] log'];
        [|done..].
      cbn [snd entries objects]. rewrite length_app. cbn [length].
      apply Forall_take, Forall_cons. split; [cbn; lia|].
      eapply Forall_impl; [exact Hwf|]. cbn. intros entry. lia.
  - by rewrite length_insert.
Qed.

Lemma run_addresses events :
  Forall (λ entry, (entry.2 < length (objects (run events fresh)))%nat)
    (entries (run events fresh)).
Proof.
  apply (run_invariant
           (λ world, Forall (λ entry, (entry.2 < length (objects world))%nat)
                       (entries world))).
  - apply step_addresses.
  - constructor.
Qed.

(** The store only grows, and an object stays as it is unless a caller
    changes it. *)
Lemma run_objects events address :
  address ∉ changes_of events →
  ∀ world,
    (address < length (objects world))%nat →
    objects (run events world) !! address = objects world !! address.
Proof.
  induction events as [|event events IH]; [done|].
  intros Hnot world Hlength. cbn [Dictionary.run foldl].
  assert (objects (step world event) !! address = objects world !! address
          ∧ (address < length (objects (step world event)))%nat
          ∧ address ∉ changes_of events) as (Hsame & Hlength' & Hnot').
  { destruct event as [key|address' value]; cbn in *.
    - split_and!; [| |done].
      + destruct (cache_lookup key (entries world)) as [a|] eqn:Hlookup.
        * by rewrite (call_hit _ _ a).
        * rewrite call_miss by done.
          destruct (user_function key (traffic world))
            as [[result|e|] log']; [|done..].
          cbn. by rewrite lookup_app_l.
      + destruct (cache_lookup key (entries world)) as [a|] eqn:Hlookup.
        * by rewrite (call_hit _ _ a).
        * rewrite call_miss by done.
          destruct (user_function key (traffic world))
            as [[result|e|] log']; [|done..].
          cbn. rewrite length_app. lia.
    - apply not_elem_of_cons in Hnot as [Hne Hnot].
      split_and!; [|by rewrite length_insert|done].
      by rewrite list_lookup_insert_ne. }
  rewrite <- Hsame. by apply IH.
Qed.

(** **** A key that was cached stays cached while fewer than [maxsize]
    calls follow *)

Lemma step_cached_within n key address world event :
  cached_within n key address world →
  (n + length (calls_of [event]) < maxsize)%nat →
  cached_within (n + length (calls_of [event])) key address (step world event).
Proof.
  intros (before & after & Hentries & Hnot & Hlength) Hn.
  destruct event as [k|address' value].
  2: { exists before, after. cbn. split_and!; [done..|lia]. }
  change (calls_of [Calls k]) with [k] in *. cbn [length] in *.
  cbn [Dictionary.step].
  assert (length before < 127)%nat as Hroom by (unfold maxsize in Hn; lia).
  destruct (decide (k = key)) as [->|Hne].
  { rewrite (call_hit _ _ address)
      by (rewrite Hentries; by apply cache_lookup_app).
    exists [], (cache_remove key (entries world)). cbn.
    split_and!; [done| |lia]. apply not_elem_of_nil. }
  destruct (cache_lookup k (entries world)) as [a|] eqn:Hlookup.
  - rewrite (call_hit _ _ a) by done. cbn. rewrite Hentries.
    destruct (cache_remove_split k key address before after Hne Hnot)
      as (before' & after' & -> & Hnot' & Hlength').
    exists ((k, a) :: before'), after'. cbn. split_and!; [done| |lia].
    rewrite not_elem_of_cons. split; [by intros ->|done].
  - rewrite call_miss by done.
    destruct (user_function k (traffic world)) as [[result|e|] log'].
    + cbn [snd]. exists ((k, length (objects world)) :: before),
        (take (126 - length before) after).
      split_and!.
      * cbn [entries]. rewrite Hentries. unfold maxsize. cbn [take].
        rewrite take_app_ge by lia.
        replace (127 - length before)%nat with (S (126 - length before))
          by lia.
        done.
      * cbn. rewrite not_elem_of_cons. split; [by intros ->|done].
      * cbn. lia.
    + exists before, after. cbn. split_and!; [done..|lia].
    + exists before, after. cbn. split_and!; [done..|lia].
Qed.

Lemma run_cached_within events :
  ∀ n key address world,
    cached_within n key address world →
    (n + length (calls_of events) < maxsize)%nat →
    cached_within (n + length (calls_of events)) key address
      (run events world).
Proof.
  induction events as [|event events IH]; intros n key address world.
  - cbn. by rewrite Nat.add_0_r.
  - intros Hcached Hn. cbn [Dictionary.run foldl].
    assert (length (calls_of (event :: events))
            = (length (calls_of [event]) + length (calls_of events))%nat)
      as Hcalls by by destruct event.
    rewrite Hcalls in *. rewrite Nat.add_assoc. apply IH; [|lia].
    apply step_cached_within; [done|lia].
Qed.

(** **** A key whose call raises is never cached *)

Lemma step_not_cached key e world event :
  stable upstream →
  fst (user_function key []) = Raise e →
  cache_lookup key (entries world) = None →
  cache_lookup key (entries (step world event)) = None.
Proof.
  intros Hstable Hraise Hnone. destruct event as [k|address value]; [|done].
  cbn. destruct (cache_lookup k (entries world)) as [a|] eqn:Hlookup.
  - rewrite (call_hit _ _ a) by done. cbn.
    destruct (decide (k = key)) as [->|Hne]; [congruence|].
    by rewrite cache_lookup_remove_ne.
  - rewrite call_miss by done.
    destruct (user_function k (traffic world)) as [[result|e'|] log']
      eqn:Hbody; [|done..].
    cbn [snd entries].
    destruct (cache_lookup key (take maxsize _)) as [a|] eqn:Htake; [|done].
    apply cache_lookup_take in Htake. cbn in Htake.
    destruct (decide (k = key)) as [->|Hne]; [|congruence].
    rewrite user_function_stable in Hbody by done. congruence.
Qed.

(** C9, as the code has it.  The cache belongs to the function, not to a
    client, and its key is the call as written: the client and the arguments
    in their positional or keyword form.  Against a stable service, at any
    time in the life of the process, take a call and a later call written
    identically on the same client, with fewer than 128 calls of [get_word],
    by any client and with any arguments, in between, and callers changing
    returned objects at will.  The two calls have the same outcome.  When the
    first returns, the second returns the very same object, the one at the
    same address, and sends nothing and creates nothing; the content of that
    object is what it was after the first call unless a caller changed it in
    between.  When the first raises, nothing is cached, and the second sends
    the same requests again before it raises the same exception.  The cache
    never holds more than 128 entries. *)
Theorem get_word_cached_repeat history between key o1 w1 o2 w2 :
  stable upstream →
  (length (calls_of between) < maxsize)%nat →
  call key (run history fresh) = (o1, w1) →
  call key (run between w1) = (o2, w2) →
  o2 = o1
  ∧ (length (entries w2) ≤ maxsize)%nat
  ∧ match o1 with
    | Return address =>
        traffic w2 = traffic (run between w1)
        ∧ objects w2 = objects (run between w1)
        ∧ is_Some (objects w1 !! address)
        ∧ (address ∉ changes_of between →
           objects w2 !! address = objects w1 !! address)
    | Raise e =>
        cache_lookup key (entries w1) = None
        ∧ ∃ requests,
            traffic w1 = traffic (run history fresh) ++ requests
            ∧ traffic w2 = traffic (run between w1) ++ requests
    | OutOfFuel => False
    end.
Proof.
  intros Hstable Hcalls Hfirst Hsecond.
  assert (length (entries w2) ≤ maxsize)%nat as Hbound.
  { replace w2
      with (run ((history ++ [Calls key]) ++ between ++ [Calls key]) fresh).
    { apply run_entries_length. }
    rewrite !run_app. unfold Dictionary.run at 1 3.
    cbn [foldl Dictionary.step]. rewrite Hfirst. cbn [snd].
    by rewrite Hsecond. }
  pose proof (call_cases _ _ _ _ Hfirst) as Hcases.
  destruct o1 as [address|e|]; [| |done].
  - destruct Hcases as [Hcached Hhow].
    assert (address < length (objects w1))%nat as Haddress.
    { destruct Hhow as [(Hlookup & -> & _)
                       |(_ & -> & result & _ & ->)].
      - pose proof (run_addresses history) as Hwf.
        rewrite Forall_forall in Hwf.
        by apply (Hwf (key, address)), cache_lookup_entry.
      - rewrite length_app. cbn. lia. }
    destruct (run_cached_within between 0 key address w1 Hcached Hcalls)
      as (before & after & Hentries & Hnot & _).
    rewrite (call_hit _ _ address) in Hsecond
      by (rewrite Hentries; by apply cache_lookup_app).
    injection Hsecond as <- <-. cbn [traffic objects].
    split_and!; [done..| |].
    + by apply lookup_lt_is_Some.
    + intros Hunchanged. by apply run_objects.
  - destruct Hcases as (Hnone & Hbody & Hentries & Hobjects).
    rewrite user_function_stable in Hbody by done.
    injection Hbody as Hraise Htraffic.
    assert (cache_lookup key (entries (run between w1)) = None) as Hnone'.
    { apply (run_invariant
               (λ world, cache_lookup key (entries world) = None)).
      - intros world event. by apply (step_not_cached key e).
      - by rewrite Hentries. }
    rewrite call_miss in Hsecond by done.
    rewrite user_function_stable in Hsecond by done.
    rewrite Hraise in Hsecond. injection Hsecond as <- <-.
    cbn [traffic]. split_and!; [done..|by rewrite Hentries|].
    by exists (snd (user_function key [])).
Qed.

End Facts.

(** *** The example dictionary *)

Import DictionaryExample.

Lemma service_stable : stable service.
Proof. by intros log log' request. Qed.

(** C5, on the example: ["eng"] is refused without a request, ["udm"] is
    looked up. *)
Lemma get_word_language_witness :
  get_word lemma_of strip_tags service "укно" "eng" false false false []
  = (Raise (ValueError "eng"), [])
  ∧ ∃ language outcome rest,
      LANGUAGES !! "udm" = Some language
      ∧ get_word lemma_of strip_tags service "укно" "udm" false false false []
        = (outcome, [] ++ search_request "укно" language :: rest).
Proof.
  split.
  - apply (get_word_language lemma_of strip_tags service
             "укно" "eng" false false false []).
    intros H. by repeat (apply elem_of_cons in H as [H|H]; [done|]);
      apply elem_of_nil in H.
  - apply (get_word_language lemma_of strip_tags service
             "укно" "udm" false false false []).
    apply elem_of_cons. by left.
Defined.

(** What the client returns on the example for a word that is found, for an
    inflected word with the fallback, and for a word that is not found. *)
Example get_word_found :
  get_word lemma_of strip_tags service "укно" "udm" true false false []
  = (Return (Translations ["укно окно; укно пиала оконное стекло"]),
     [search_request "укно" udm]).
Proof. vm_compute. reflexivity. Qed.

Example get_word_inflected :
  get_word lemma_of strip_tags service "вуэз" "udm" true false true []
  = (Return (Translations ["ву вода; ву дур берег";
                           "вуж старый; вуж дыр старина"]),
     [search_request "вуэз" udm; search_request "ву" udm]).
Proof. vm_compute. reflexivity. Qed.

Example get_word_not_found :
  get_word lemma_of strip_tags service "asdfqwerty123" "udm" false false false
    []
  = (Raise (WordNotFoundError "asdfqwerty123"),
     [search_request "asdfqwerty123" udm]).
Proof. vm_compute. reflexivity. Qed.

(** C6, on the example: without the fallback one request and
    [WordNotFoundError]; with it and a lemma, the retry is the one further
    request. *)
Lemma get_word_lemma_fallback_witness :
  get_word lemma_of strip_tags service "asdfqwerty123" "udm" false false false
    []
  = (Raise (WordNotFoundError "asdfqwerty123"),
     [] ++ [search_request "asdfqwerty123" udm])
  ∧ snd (get_word lemma_of strip_tags service "вуэз" "udm" false false true [])
    = [] ++ [search_request "вуэз" udm; search_request (lemma_of "вуэз") udm].
Proof.
  split.
  - destruct (get_word_lemma_fallback lemma_of strip_tags service
                "asdfqwerty123" "udm" udm false false false []) as [_ H].
    edestruct H as (Hplain & _ & _); [by vm_compute..|].
    by apply Hplain.
  - destruct (get_word_lemma_fallback lemma_of strip_tags service
                "вуэз" "udm" udm false false true []) as [_ H].
    edestruct H as (_ & _ & Hretry); [by vm_compute..|].
    apply Hretry; by vm_compute.
Defined.

(** C7, on the example: a word that is found at once; the tilde of its entry
    becomes the headword. *)
Lemma get_word_translations_witness :
  (∃ texts,
     fst (get_word lemma_of strip_tags service "укно" "udm" true false false
            [])
     = Return (Translations texts)
     ∧ length texts = length (entries "укно")
     ∧ (∀ i item,
          entries "укно" !! i = Some item →
          ∃ pieces,
            Forall tilde_free pieces
            ∧ strip_tags (body item) = String.concat "~" pieces
            ∧ texts !! i
              = Some (if true
                      then String.concat (srcWord item) pieces
                      else strip_tags (body item)))
     ∧ (true = true →
        Forall (λ item, tilde_free (srcWord item)) (entries "укно") →
        Forall tilde_free texts))
  ∧ map (λ item, strip_tags (body item)) (entries "укно")
    = [String.concat "~" ["укно окно; "; " пиала оконное стекло"]]
  ∧ String.concat "укно" ["укно окно; "; " пиала оконное стекло"]
    = "укно окно; укно пиала оконное стекло".
Proof.
  split; [|by vm_compute].
  apply (get_word_translations lemma_of strip_tags service
           "укно" "udm" udm true false [] (entries "укно")).
  - by vm_compute.
  - by vm_compute.
  - left. by vm_compute.
Defined.

(** C8, on the example: the lookup of an inflected word. *)
Lemma get_word_fallback_tilde_witness :
  ∃ texts,
    get_word lemma_of strip_tags service "вуэз" "udm" true false true []
    = (Return (Translations texts),
       [] ++ [search_request "вуэз" udm; search_request (lemma_of "вуэз") udm])
    ∧ length texts = length (entries "ву")
    ∧ ∀ i item,
        entries "ву" !! i = Some item →
        ∃ pieces,
          Forall tilde_free pieces
          ∧ strip_tags (body item) = String.concat "~" pieces
          ∧ texts !! i = Some (String.concat (srcWord item) pieces).
Proof.
  apply (get_word_fallback_tilde lemma_of strip_tags service
           "вуэз" "udm" udm [] (entries "ву"));
    by vm_compute.
Defined.

(** C8 as stated fails: the search for the lemma ["ву"] also finds the entry
    of ["вуж"], and the tilde in that entry becomes ["вуж"], not the lemma. *)
Lemma tilde_not_replaced_by_lemma :
  ¬ tilde_replaced_by_lemma lemma_of strip_tags service "вуэз" "udm" [].
Proof.
  intros Hclaim.
  specialize (Hclaim udm (entries "ву")).
  rewrite get_word_inflected in Hclaim.
  assert (Return (Translations ["ву вода; ву дур берег";
                                "вуж старый; вуж дыр старина"])
          = Return (Translations ["ву вода; ву дур берег";
                                  "вуж старый; ву дыр старина"])) as Heq.
  { etrans; [apply Hclaim; by vm_compute|]. vm_compute. reflexivity. }
  discriminate Heq.
Qed.

(** C9, on the example: a lookup; then a lookup by another client, a caller
    emptying the list that one was handed, and a lookup that fails; then the
    first lookup again, which hands out the object at address 0 again and
    sends nothing. *)
Lemma get_word_cached_repeat_witness :
  Return 0%nat = Return 0%nat
  ∧ (length (Dictionary.entries after_water) ≤ maxsize)%nat
  ∧ traffic after_water
    = traffic (run lemma_of strip_tags service water_events after_window)
  ∧ objects after_water
    = objects (run lemma_of strip_tags service water_events after_window)
  ∧ is_Some (objects after_window !! 0%nat)
  ∧ (0%nat ∉ changes_of water_events →
     objects after_water !! 0%nat = objects after_window !! 0%nat).
Proof.
  apply (get_word_cached_repeat lemma_of strip_tags service [] water_events
           window_call (Return 0%nat) after_window (Return 0%nat) after_water).
  - exact service_stable.
  - vm_compute. lia.
  - vm_compute. reflexivity.
  - vm_compute. reflexivity.
Defined.

(** C9 as stated fails: the lookup of a word that is not found raises, is
    not cached, and sends its request again when it is repeated. *)
Lemma second_call_not_silent :
  ¬ second_call_is_silent lemma_of strip_tags service missing_call fresh.
Proof.
  intros Hclaim.
  destruct (Hclaim
              (Raise (WordNotFoundError "asdfqwerty123"))
              (mkWorld [] [] [search_request "asdfqwerty123" udm])
              (Raise (WordNotFoundError "asdfqwerty123"))
              (mkWorld [] []
                 [search_request "asdfqwerty123" udm;
                  search_request "asdfqwerty123" udm]))
    as [_ Htraffic]; [by vm_compute..|].
  discriminate Htraffic.
Qed.

(** The cache hands out the object it holds, not a copy: after a caller has
    changed the list it was handed, the repeated call returns the changed
    list. *)
Example get_word_changed_object :
  let world :=
    run lemma_of strip_tags service
      [Calls window_call; Changes 0 (Translations ["changed"])] fresh in
  fst (call lemma_of strip_tags service window_call world) = Return 0%nat
  ∧ objects (snd (call lemma_of strip_tags service window_call world))
      !! 0%nat
    = Some (Translations ["changed"])
  ∧ fst (user_function lemma_of strip_tags service window_call [])
    = Return (Translations ["укно окно; укно пиала оконное стекло"]).
Proof. vm_compute. by split_and!. Qed.

(** Two calls that bind the parameters to the same values but are written
    differently, and the same call on two clients, are different keys: each
    of them sends its request. *)
Example get_word_spelling :
  bind_arguments (mkCall 0 (Pos1 "укно") [])
  = bind_arguments (mkCall 0 (Pos1 "укно") [kw_lang "udm"])
  ∧ traffic (run lemma_of strip_tags service
               [Calls (mkCall 0 (Pos1 "укно") []);
                Calls (mkCall 0 (Pos1 "укно") [kw_lang "udm"])] fresh)
    = [search_request "укно" udm; search_request "укно" udm].
Proof. vm_compute. by split. Qed.

Example get_word_other_client :
  traffic (run lemma_of strip_tags service
             [Calls (mkCall 0 (Pos1 "укно") []);
              Calls (mkCall 1 (Pos1 "укно") [])] fresh)
  = [search_request "укно" udm; search_request "укно" udm].
Proof. vm_compute. reflexivity. Qed.

(** After 128 other lookups the entry is gone and the request is sent
    again. *)
Example get_word_evicted :
  let world :=
    run MoreExamples.own_lemma strip_tags MoreExamples.echo
      (Calls window_call :: MoreExamples.numbered_calls) fresh in
  cache_lookup window_call (Dictionary.entries world) = None
  ∧ length (traffic world) = 129%nat
  ∧ length
      (traffic (snd (call MoreExamples.own_lemma strip_tags MoreExamples.echo
                       window_call world)))
    = 130%nat.
Proof. vm_compute. by split_and!. Qed.

End DictionaryFacts.

(** ** Facts about the corpus client *)

Module CorpusFacts.
Import Corpus.

(** *** Dictionaries *)

(** Every key of the defaults is present after the merge. *)
Lemma merge_params_lookup params key default :
  DEFAULT_PARAMS !! key = Some default →
  ∃ v, merge_params params !! key = Some v.
Proof.
  intros Hdefault. unfold merge_params.
  destruct params as [params|]; [|by eauto].
  case_bool_decide; [by eauto|].
  rewrite lookup_union. rewrite Hdefault.
  destruct (params !! key); simpl; eauto.
Qed.

Lemma merge_params_total params key default :
  DEFAULT_PARAMS !! key = Some default →
  merge_params params !! key = Some (merge_params params !!! key).
Proof.
  intros Hdefault.
  destruct (merge_params_lookup params key default Hdefault) as [v Hv].
  rewrite Hv. f_equal. symmetry. by apply lookup_total_correct.
Qed.

Lemma merge_params_complete params : complete (merge_params params).
Proof.
  intros key Hkey.
  repeat (apply elem_of_cons in Hkey as [->|Hkey];
          [by eapply merge_params_total|]).
  by apply elem_of_nil in Hkey.
Qed.

Lemma subscript_complete search_params key log :
  search_params !! key = Some (search_params !!! key) →
  subscript search_params key log = (Return (search_params !!! key), log).
Proof. intros Hkey. unfold subscript. by rewrite Hkey. Qed.

(** An entry under another key does not change what a key is merged to. *)
Lemma merge_params_insert_ne params key v key' :
  key ≠ key' →
  merge_params (Some (<[key := v]> (default ∅ params))) !! key'
  = merge_params params !! key'.
Proof.
  intros Hne. unfold merge_params.
  rewrite bool_decide_eq_false_2 by apply insert_non_empty.
  rewrite lookup_union, lookup_insert_ne by done.
  destruct params as [params|]; cbn [from_option]; unfold id.
  - case_bool_decide as Hempty; [|by rewrite lookup_union].
    subst params. rewrite lookup_empty. by destruct (DEFAULT_PARAMS !! key').
  - rewrite lookup_empty. by destruct (DEFAULT_PARAMS !! key').
Qed.

Lemma lookup_total_eq (m m' : gmap string Value) key :
  m !! key = m' !! key → m !!! key = m' !!! key.
Proof. intros H. unfold lookup_total, map_lookup_total. by rewrite H. Qed.

(** *** The payloads *)

Lemma first_request_ext text search_params search_params' :
  search_params !!! "full_compare" = search_params' !!! "full_compare" →
  search_params !!! "full_text_mode" = search_params' !!! "full_text_mode" →
  first_request text search_params = first_request text search_params'.
Proof. unfold first_request, first_kwargs. by intros -> ->. Qed.

Lemma page_request_ext text search_params search_params' total_elements
    curr_page :
  search_params !!! "full_compare" = search_params' !!! "full_compare" →
  search_params !!! "full_text_mode" = search_params' !!! "full_text_mode" →
  page_request text search_params total_elements curr_page
  = page_request text search_params' total_elements curr_page.
Proof. unfold page_request, page_kwargs. by intros -> ->. Qed.

Lemma first_request_page text search_params :
  page (payload (first_request text search_params)) = VInt 1
  ∧ perPage (payload (first_request text search_params)) = VInt 10
  ∧ rows (payload (first_request text search_params)) = VInt 0.
Proof.
  unfold first_request, first_kwargs, _build_search_payload, kwargs_get.
  cbn [payload page perPage rows]. by simplify_map_eq.
Qed.

Lemma page_request_page text search_params total_elements curr_page :
  page (payload (page_request text search_params total_elements curr_page))
    = VInt curr_page
  ∧ perPage (payload
               (page_request text search_params total_elements curr_page))
    = VInt 10
  ∧ rows (payload (page_request text search_params total_elements curr_page))
    = VInt total_elements.
Proof.
  unfold page_request, page_kwargs, _build_search_payload, kwargs_get.
  cbn [payload page perPage rows]. by simplify_map_eq.
Qed.

Lemma page_requests_S text search_params total_elements curr_page n :
  page_requests text search_params total_elements curr_page (S n)
  = page_request text search_params total_elements curr_page
    :: page_requests text search_params total_elements (curr_page + 1) n.
Proof.
  unfold page_requests. rewrite <- cons_seq. cbn [map]. f_equal.
  - f_equal. lia.
  - rewrite <- seq_shift, map_map. apply map_ext. intros k. f_equal. lia.
Qed.

(** *** One turn of the loop *)

Section Facts.

Variable upstream : Upstream Payload SearchPage.

Local Abbreviation fetch_loop := (Corpus.fetch_loop upstream).
Local Abbreviation _fetch_texts := (Corpus._fetch_texts upstream).
Local Abbreviation get_texts := (Corpus.get_texts upstream).

Lemma fetch_loop_done fuel text search_params total_elements count curr_page
    curr_elements results log :
  as_int count ≤ curr_elements →
  fetch_loop fuel text search_params total_elements count curr_page
    curr_elements results log = (Return results, log).
Proof.
  intros Hcount. destruct fuel; cbn [Corpus.fetch_loop];
    by rewrite (proj2 (Z.ltb_ge _ _) Hcount).
Qed.

Lemma fetch_loop_out_of_fuel text search_params total_elements count curr_page
    curr_elements results log :
  curr_elements < as_int count →
  fetch_loop 0 text search_params total_elements count curr_page
    curr_elements results log = (OutOfFuel, log).
Proof.
  intros Hcount. cbn [Corpus.fetch_loop].
  by rewrite (proj2 (Z.ltb_lt _ _) Hcount).
Qed.

Lemma fetch_loop_turn fuel text search_params total_elements count curr_page
    curr_elements results log :
  complete search_params →
  curr_elements < as_int count →
  let request := page_request text search_params total_elements curr_page in
  fetch_loop (S fuel) text search_params total_elements count curr_page
    curr_elements results log
  = match answer upstream log request with
    | None =>
        (Raise (APIError (status_code (upstream log request))
                  (Http.text (upstream log request))),
         log ++ [request])
    | Some curr_res =>
        if last curr_res
        then (Return (results ++ [curr_res]), log ++ [request])
        else fetch_loop fuel text search_params total_elements count
               (curr_page + 1) (curr_elements + numberOfElements curr_res)
               (results ++ [curr_res]) (log ++ [request])
    end.
Proof.
  intros Hcomplete Hcount. cbn zeta. cbn [Corpus.fetch_loop].
  rewrite (proj2 (Z.ltb_lt _ _) Hcount).
  unfold mbind, M_bind, bind.
  rewrite !subscript_complete
    by (apply Hcomplete; repeat first [by left | right]).
  rewrite make_request_answer.
  fold (page_kwargs search_params total_elements curr_page).
  fold (page_request text search_params total_elements curr_page).
  destruct (answer upstream log _) as [curr_res|]; [|done].
  by destruct (last curr_res).
Qed.

(** *** The loop against any service *)

(** The loop sends the requests for consecutive pages from [curr_page] on,
    appends one page for each when it returns, and raises nothing but
    [APIError]. *)
Lemma fetch_loop_spec fuel text search_params total_elements count :
  complete search_params →
  ∀ curr_page curr_elements results log,
    ∃ n,
      snd (fetch_loop fuel text search_params total_elements count curr_page
             curr_elements results log)
      = log ++ page_requests text search_params total_elements curr_page n
      ∧ match fst (fetch_loop fuel text search_params total_elements count
                     curr_page curr_elements results log) with
        | Return results' =>
            ∃ new_pages,
              results' = results ++ new_pages ∧ length new_pages = n
        | Raise e => ∃ status body, e = APIError status body
        | OutOfFuel => True
        end.
Proof.
  intros Hcomplete.
  induction fuel as [|fuel IH]; intros curr_page curr_elements results log;
    destruct (Z.lt_ge_cases curr_elements (as_int count)) as [Hlt|Hge].
  - rewrite fetch_loop_out_of_fuel by done. exists 0%nat.
    by rewrite app_nil_r.
  - rewrite fetch_loop_done by done. exists 0%nat. rewrite app_nil_r.
    split; [done|]. exists []. by rewrite app_nil_r.
  - rewrite fetch_loop_turn by done. cbn zeta.
    destruct (answer upstream log _) as [curr_res|].
    + destruct (last curr_res).
      * exists 1%nat. rewrite page_requests_S. split; [done|]. by exists [curr_res].
      * destruct (IH (curr_page + 1) (curr_elements + numberOfElements curr_res)
                    (results ++ [curr_res])
                    (log ++ [page_request text search_params total_elements
                               curr_page])) as (n & Hlog & Hout).
        exists (S n). rewrite page_requests_S. split.
        { rewrite Hlog. by rewrite <- app_assoc. }
        destruct (fst _) as [results'|e|]; [|done..].
        destruct Hout as (new_pages & -> & <-).
        exists (curr_res :: new_pages). by rewrite <- app_assoc.
    + exists 1%nat. rewrite page_requests_S. split; [done|]. by eexists _, _.
  - rewrite fetch_loop_done by done. exists 0%nat. rewrite app_nil_r.
    split; [done|]. exists []. by rewrite app_nil_r.
Qed.

(** *** [_fetch_texts] and [get_texts] in terms of the answers *)

Lemma _fetch_texts_cases fuel text search_params log :
  complete search_params →
  let request := first_request text search_params in
  _fetch_texts fuel text search_params log
  = match answer upstream log request with
    | None =>
        (Raise (APIError (status_code (upstream log request))
                  (Http.text (upstream log request))),
         log ++ [request])
    | Some first_res =>
        if empty first_res
        then (Return ([], search_params !!! "count"), log ++ [request])
        else if last first_res
        then (Return ([first_res], search_params !!! "count"),
              log ++ [request])
        else
          let count :=
            if truthy (search_params !!! "all_texts")
            then VInt (totalElements first_res)
            else search_params !!! "count" in
          match fetch_loop fuel text search_params (totalElements first_res)
                  count 2 (numberOfElements first_res) [first_res]
                  (log ++ [request]) with
          | (Return results, log') => (Return (results, count), log')
          | (Raise e, log') => (Raise e, log')
          | (OutOfFuel, log') => (OutOfFuel, log')
          end
    end.
Proof.
  intros Hcomplete. cbn zeta. unfold Corpus._fetch_texts.
  unfold mbind, M_bind, bind.
  rewrite !subscript_complete
    by (apply Hcomplete; repeat first [by left | right]).
  rewrite make_request_answer.
  fold (first_kwargs search_params). fold (first_request text search_params).
  destruct (answer upstream log _) as [first_res|]; [|done].
  rewrite !subscript_complete
    by (apply Hcomplete; repeat first [by left | right]).
  destruct (empty first_res); [done|].
  destruct (last first_res); [done|].
  rewrite !subscript_complete
    by (apply Hcomplete; repeat first [by left | right]).
  by destruct (Corpus.fetch_loop _ _ _ _ _ _ _ _ _ _) as [[results|e|] log'].
Qed.

Lemma get_texts_cases fuel text params log :
  let search_params := merge_params params in
  get_texts fuel text params log
  = match _fetch_texts fuel text search_params log with
    | (Return (results, new_count), log') =>
        if (length results =? 0)%nat
        then (Raise (TextsNotFoundError text), log')
        else if truthy (search_params !!! "return_full_json")
        then (Return (FullPages results), log')
        else (Return (Texts (slice_to (bodies results) (as_int new_count))),
              log')
    | (Raise e, log') => (Raise e, log')
    | (OutOfFuel, log') => (OutOfFuel, log')
    end.
Proof.
  cbn zeta. unfold Corpus.get_texts. unfold mbind, M_bind, bind.
  destruct (Corpus._fetch_texts _ _ _ _ _) as [[[results new_count]|e|] log'];
    [|done..].
  destruct (length results =? 0)%nat; [done|].
  rewrite subscript_complete
    by (apply merge_params_complete; repeat first [by left | right]).
  by destruct (truthy _).
Qed.

Lemma answer_Some {P J} (up : Upstream P J) log request j :
  answer up log request = Some j → json (up log request) = j.
Proof. unfold answer. destruct (_ =? 200); congruence. Qed.

(** What [_fetch_texts] does after a first page that is neither empty nor
    the last one. *)
Lemma _fetch_texts_loop fuel text search_params log first :
  complete search_params →
  answer upstream log (first_request text search_params) = Some first →
  empty first = false →
  last first = false →
  ∃ n,
    snd (_fetch_texts fuel text search_params log)
    = log ++ first_request text search_params
        :: page_requests text search_params (totalElements first) 2 n
    ∧ match fst (_fetch_texts fuel text search_params log) with
      | Return (results, new_count) =>
          (∃ new_pages,
             results = first :: new_pages ∧ length new_pages = n)
          ∧ as_int new_count = effective_target search_params first
      | Raise e => ∃ status body, e = APIError status body
      | OutOfFuel => True
      end.
Proof.
  intros Hcomplete Hanswer Hempty Hlast.
  rewrite _fetch_texts_cases by done. cbn zeta.
  rewrite Hanswer, Hempty, Hlast.
  set (count := if truthy _ then _ else _).
  destruct (fetch_loop_spec fuel text search_params (totalElements first)
              count Hcomplete 2 (numberOfElements first) [first]
              (log ++ [first_request text search_params]))
    as (n & Hlog & Hout).
  exists n.
  destruct (Corpus.fetch_loop _ _ _ _ _ _ _ _ _ _) as [[results|e|] log'];
    cbn [fst snd] in *; rewrite Hlog, <- app_assoc; (split; [done|]);
    [|done..].
  destruct Hout as (new_pages & -> & <-). split; [by eexists|].
  unfold effective_target, count. rewrite Hempty, Hlast.
  by destruct (truthy _).
Qed.

(** The requests [_fetch_texts] sends, whatever is answered: the first
    request, then requests for the pages 2, 3, ... with the [totalElements]
    that came with the first answer. *)
Lemma _fetch_texts_traffic fuel text search_params log :
  complete search_params →
  ∃ n,
    snd (_fetch_texts fuel text search_params log)
    = log ++ first_request text search_params
        :: page_requests text search_params
             (totalElements
                (json (upstream log (first_request text search_params))))
             2 n.
Proof.
  intros Hcomplete.
  destruct (answer upstream log (first_request text search_params))
    as [first|] eqn:Hanswer.
  - rewrite (answer_Some _ _ _ _ Hanswer).
    destruct (empty first) eqn:Hempty; [|destruct (last first) eqn:Hlast].
    + exists 0%nat. rewrite _fetch_texts_cases by done. cbn zeta.
      by rewrite Hanswer, Hempty.
    + exists 0%nat. rewrite _fetch_texts_cases by done. cbn zeta.
      by rewrite Hanswer, Hempty, Hlast.
    + destruct (_fetch_texts_loop fuel text search_params log first)
        as (n & Hlog & _); by eauto.
  - exists 0%nat. rewrite _fetch_texts_cases by done. cbn zeta.
    by rewrite Hanswer.
Qed.

Lemma get_texts_log fuel text params log :
  snd (get_texts fuel text params log)
  = snd (_fetch_texts fuel text (merge_params params) log).
Proof.
  rewrite get_texts_cases. cbn zeta.
  destruct (Corpus._fetch_texts _ _ _ _ _) as [[[results new_count]|e|] log'];
    [|done..].
  by repeat (case_match; cbn [snd]).
Qed.

(** C3: the requests of a search, in the order sent: the first carries page
    1 and rows 0; the request at position k, for k from 2, carries page k and
    as rows the [totalElements] of the answer to the first request. *)
Theorem get_texts_request_pages fuel text params log :
  let total_elements :=
    totalElements
      (json (upstream log (first_request text (merge_params params)))) in
  ∃ requests,
    snd (get_texts fuel text params log) = log ++ requests
    ∧ (0 < length requests)%nat
    ∧ ∀ i request,
        requests !! i = Some request →
        page (payload request) = VInt (Z.of_nat i + 1)
        ∧ rows (payload request)
          = VInt (if decide (i = 0%nat) then 0 else total_elements).
Proof.
  cbn zeta. rewrite get_texts_log.
  destruct (_fetch_texts_traffic fuel text (merge_params params) log
              (merge_params_complete params)) as (n & ->).
  eexists. split; [done|]. split; [cbn [length]; lia|].
  intros [|i] request Hi.
  - injection Hi as <-. split; apply first_request_page.
  - cbn [lookup list_lookup] in Hi. unfold page_requests in Hi.
    apply list_lookup_fmap_Some_1 in Hi as (k & -> & Hk).
    apply lookup_seq in Hk as [-> _]. rewrite decide_False by done.
    split.
    + etrans; [apply page_request_page|]. f_equal. lia.
    + apply page_request_page.
Qed.

(** The client reads five keys of the merged dictionary and no other. *)
Lemma fetch_loop_ext fuel text search_params search_params' total_elements
    count :
  complete search_params →
  complete search_params' →
  search_params !!! "full_compare" = search_params' !!! "full_compare" →
  search_params !!! "full_text_mode" = search_params' !!! "full_text_mode" →
  ∀ curr_page curr_elements results log,
    fetch_loop fuel text search_params total_elements count curr_page
      curr_elements results log
    = fetch_loop fuel text search_params' total_elements count curr_page
        curr_elements results log.
Proof.
  intros Hcomplete Hcomplete' Hcompare Hmode.
  induction fuel as [|fuel IH]; intros curr_page curr_elements results log;
    destruct (Z.lt_ge_cases curr_elements (as_int count)) as [Hlt|Hge].
  - by rewrite !fetch_loop_out_of_fuel.
  - by rewrite !fetch_loop_done.
  - rewrite !fetch_loop_turn by done. cbn zeta.
    rewrite (page_request_ext text search_params search_params') by done.
    destruct (answer upstream log _) as [curr_res|]; [|done].
    destruct (last curr_res); [done|]. apply IH.
  - by rewrite !fetch_loop_done.
Qed.

Lemma get_texts_ext fuel text params params' log :
  (∀ key, key ∈ ["full_compare"; "full_text_mode"; "count"; "all_texts";
                 "return_full_json"] →
     merge_params params !! key = merge_params params' !! key) →
  get_texts fuel text params log = get_texts fuel text params' log.
Proof.
  intros Hsame.
  assert (∀ key, key ∈ ["full_compare"; "full_text_mode"; "count";
                        "all_texts"; "return_full_json"] →
            merge_params params !!! key = merge_params params' !!! key)
    as Htotal by (intros key Hkey; by apply lookup_total_eq, Hsame).
  pose proof (merge_params_complete params) as Hcomplete.
  pose proof (merge_params_complete params') as Hcomplete'.
  rewrite !get_texts_cases. cbn zeta.
  rewrite !_fetch_texts_cases by done. cbn zeta.
  rewrite (first_request_ext text _ (merge_params params'))
    by (apply Htotal; repeat first [by left | right]).
  rewrite !(Htotal "count"), !(Htotal "all_texts"),
    !(Htotal "return_full_json") by (repeat first [by left | right]).
  destruct (answer upstream log _) as [first_res|]; [|done].
  destruct (empty first_res); [done|].
  destruct (last first_res); [done|].
  rewrite (fetch_loop_ext _ _ (merge_params params) (merge_params params'));
    [done|done|done|apply Htotal..]; repeat first [by left | right].
Qed.

(** C10: whatever [params] holds, the first request of a search carries page
    1 and every request carries perPage 10; and putting a [page] and a
    [per_page] entry into [params] changes neither the requests sent nor the
    outcome of [get_texts]. *)
Theorem get_texts_default_paging fuel text params log :
  (∃ first rest,
     snd (get_texts fuel text params log) = log ++ first :: rest
     ∧ page (payload first) = VInt 1
     ∧ Forall (λ request, perPage (payload request) = VInt 10)
         (first :: rest))
  ∧ ∀ page_value per_page_value,
      get_texts fuel text
        (Some (<["page" := page_value]>
                 (<["per_page" := per_page_value]> (default ∅ params)))) log
      = get_texts fuel text params log.
Proof.
  split.
  - rewrite get_texts_log.
    destruct (_fetch_texts_traffic fuel text (merge_params params) log
                (merge_params_complete params)) as (n & ->).
    eexists _, _. split; [done|]. split; [apply first_request_page|].
    constructor; [apply first_request_page|].
    unfold page_requests. apply Forall_map, Forall_forall.
    intros k _. apply page_request_page.
  - intros page_value per_page_value. apply get_texts_ext.
    intros key Hkey.
    assert ("page" ≠ key ∧ "per_page" ≠ key) as [Hpage Hper_page].
    { split; intros <-;
        repeat (apply elem_of_cons in Hkey as [Hkey|Hkey]; [done|]);
        by apply elem_of_nil in Hkey. }
    etrans.
    + exact (merge_params_insert_ne
               (Some (<["per_page" := per_page_value]> (default ∅ params)))
               "page" page_value key Hpage).
    + exact (merge_params_insert_ne params "per_page" per_page_value key
               Hper_page).
Qed.

(** C4: when the first request is answered with a page, [get_texts] raises
    [TextsNotFoundError] exactly when that page reports [empty], in which
    case [_fetch_texts] returned no page; when the page is not empty, what
    [_fetch_texts] returns starts with that page. *)
Theorem get_texts_not_found fuel text params log first :
  let search_params := merge_params params in
  answer upstream log (first_request text search_params) = Some first →
  (fst (get_texts fuel text params log) = Raise (TextsNotFoundError text)
   ↔ empty first = true)
  ∧ (empty first = true →
     fst (_fetch_texts fuel text search_params log)
     = Return ([], search_params !!! "count"))
  ∧ (empty first = false →
     ∀ results new_count,
       fst (_fetch_texts fuel text search_params log)
         = Return (results, new_count) →
       ∃ rest, results = first :: rest).
Proof.
  cbn zeta. intros Hanswer.
  pose proof (merge_params_complete params) as Hcomplete.
  rewrite get_texts_cases. cbn zeta.
  destruct (empty first) eqn:Hempty; [|destruct (last first) eqn:Hlast].
  - rewrite _fetch_texts_cases by done. cbn zeta.
    rewrite Hanswer, Hempty. by split_and!.
  - rewrite _fetch_texts_cases by done. cbn zeta.
    rewrite Hanswer, Hempty, Hlast. cbn [length Nat.eqb fst].
    split_and!; [|done|].
    + by destruct (truthy _).
    + intros _ results new_count [= <- _]. by exists [].
  - destruct (_fetch_texts_loop fuel text (merge_params params) log first)
      as (n & _ & Hout); [done..|].
    destruct (Corpus._fetch_texts _ _ _ _ _)
      as [[[results new_count]|e|] log']; cbn [fst] in *.
    + destruct Hout as [(new_pages & -> & _) _]. cbn [length Nat.eqb].
      split_and!; [|done|].
      * by destruct (truthy _).
      * intros _ results' new_count' [= <- _]. by eexists.
    + destruct Hout as (status & body & ->). by split_and!.
    + by split_and!.
Qed.

(** The slice of the result. *)
Lemma slice_to_nonneg {A} (l : list A) n :
  0 ≤ n →
  slice_to l n = take (Z.to_nat n) l
  ∧ Z.of_nat (length (slice_to l n)) ≤ n.
Proof.
  intros Hn. unfold slice_to. rewrite (proj2 (Z.ltb_ge _ _) Hn).
  split; [done|]. rewrite length_take. lia.
Qed.

Lemma slice_to_negative {A} (l : list A) n :
  n < 0 → slice_to l n = take (length l - Z.to_nat (- n)) l.
Proof. intros Hn. unfold slice_to. by rewrite (proj2 (Z.ltb_lt _ _) Hn). Qed.

(** C2, as the code has it: when [_fetch_texts] returns at least one page
    and [return_full_json] is false, [get_texts] returns the bodies of the
    content items, page after page in the order fetched and in the order of
    each page, cut by the slice [[:target]], where the target is
    [totalElements] of the first page when [all_texts] is set and the first
    page is neither empty nor last, and the requested [count] otherwise.  For
    a target that is not negative the slice keeps the first [target] bodies,
    or all of them when there are fewer, so the result has at most [target]
    items; for a negative target it drops the last [-target] bodies. *)
Theorem get_texts_bodies fuel text params log first results new_count log' :
  let search_params := merge_params params in
  let target := effective_target search_params first in
  answer upstream log (first_request text search_params) = Some first →
  _fetch_texts fuel text search_params log
    = (Return (results, new_count), log') →
  results ≠ [] →
  truthy (search_params !!! "return_full_json") = false →
  get_texts fuel text params log
    = (Return (Texts (slice_to (bodies results) target)), log')
  ∧ (∃ rest, results = first :: rest)
  ∧ (0 ≤ target →
     slice_to (bodies results) target
       = take (Z.to_nat target) (bodies results)
     ∧ Z.of_nat (length (slice_to (bodies results) target)) ≤ target
     ∧ (Z.of_nat (length (bodies results)) ≤ target →
        slice_to (bodies results) target = bodies results))
  ∧ (target < 0 →
     slice_to (bodies results) target
       = take (length (bodies results) - Z.to_nat (- target))
           (bodies results)).
Proof.
  cbn zeta. intros Hanswer Hfetch Hresults Hfull.
  pose proof (merge_params_complete params) as Hcomplete.
  assert ((∃ rest, results = first :: rest)
          ∧ as_int new_count
            = effective_target (merge_params params) first) as [Hfirst Hcount].
  { destruct (empty first) eqn:Hempty; [|destruct (last first) eqn:Hlast].
    - rewrite _fetch_texts_cases in Hfetch by done. cbn zeta in Hfetch.
      rewrite Hanswer, Hempty in Hfetch. by injection Hfetch as <- _ _.
    - rewrite _fetch_texts_cases in Hfetch by done. cbn zeta in Hfetch.
      rewrite Hanswer, Hempty, Hlast in Hfetch. injection Hfetch as <- <- _.
      split; [by exists []|]. unfold effective_target.
      by rewrite Hlast, andb_false_r.
    - destruct (_fetch_texts_loop fuel text (merge_params params) log first)
        as (n & _ & Hout); [done..|].
      rewrite Hfetch in Hout. cbn [fst] in Hout.
      destruct Hout as [(new_pages & -> & _) ->]. split; [by eexists|done]. }
  split_and!; [|done| |].
  - rewrite get_texts_cases. cbn zeta. rewrite Hfetch, Hfull, Hcount.
    destruct Hfirst as [rest ->]. done.
  - intros Htarget.
    destruct (slice_to_nonneg (bodies results) _ Htarget) as [Htake Hlen].
    split_and!; [done..|].
    intros Hfew. rewrite Htake. apply take_ge. lia.
  - apply slice_to_negative.
Qed.

(** *** The loop against a scripted service *)

Lemma answer_scripted pages log request :
  answer (scripted pages) log request = Some (pages (S (length log))).
Proof. reflexivity. Qed.

Lemma requested_pages_page_requests text search_params total_elements
    curr_page n :
  requested_pages (page_requests text search_params total_elements curr_page n)
  = map (λ k, VInt (curr_page + Z.of_nat k)) (seq 0 n).
Proof.
  unfold requested_pages, page_requests. rewrite map_map.
  apply map_ext. intros k. apply page_request_page.
Qed.

Lemma pages_up_to_S n :
  pages_up_to (S n) = VInt 1 :: map (λ k, VInt (2 + Z.of_nat k)) (seq 0 n).
Proof.
  unfold pages_up_to. rewrite <- cons_seq. cbn [map]. f_equal.
  rewrite <- seq_shift, <- seq_shift, !map_map.
  apply map_ext. intros k. f_equal. lia.
Qed.

End Facts.

(** With a last page ahead and fuel for the pages up to it, the loop returns;
    it stops at the last page or at the first page that reaches the count. *)
Lemma fetch_loop_scripted pages text search_params total_elements count N :
  complete search_params →
  last (pages N) = true →
  ∀ fuel j results log,
    length log = j →
    (1 ≤ j < N)%nat →
    (∀ k, (j < k < N)%nat → last (pages k) = false) →
    (N - j ≤ fuel)%nat →
    ∃ stop,
      (j ≤ stop ≤ N)%nat
      ∧ (stop = N ∨ as_int count ≤ accumulated pages stop)
      ∧ (∀ k, (j ≤ k < stop)%nat → accumulated pages k < as_int count)
      ∧ fetch_loop (scripted pages) fuel text search_params total_elements
          count (Z.of_nat j + 1) (accumulated pages j) results log
        = (Return (results ++ map pages (seq (S j) (stop - j))),
           log ++ page_requests text search_params total_elements
                    (Z.of_nat j + 1) (stop - j)).
Proof.
  intros Hcomplete HlastN.
  induction fuel as [|fuel IH]; intros j results log Hlog Hj Hbefore Hfuel;
    [lia|].
  destruct (Z.lt_ge_cases (accumulated pages j) (as_int count)) as [Hlt|Hge].
  - rewrite fetch_loop_turn by done. cbn zeta.
    rewrite answer_scripted, Hlog.
    destruct (last (pages (S j))) eqn:Hlast.
    + assert (S j = N) as HN.
      { destruct (decide (S j = N)) as [|Hne]; [done|].
        rewrite Hbefore in Hlast by lia. done. }
      exists (S j).
      assert ((S j - j)%nat = 1%nat) as -> by lia.
      split; [lia|]. split_and!; [by left| |].
      * intros k Hk. by replace k with j by lia.
      * rewrite page_requests_S. done.
    + assert (S j ≠ N) as HN by (intros <-; congruence).
      destruct (IH (S j) (results ++ [pages (S j)])
                  (log ++ [page_request text search_params total_elements
                             (Z.of_nat j + 1)]))
        as (stop & Hstop & Hreach & Hbelow & Hrun).
      { rewrite length_app, Hlog. cbn [length]. lia. }
      { lia. }
      { intros k Hk. apply Hbefore. lia. }
      { lia. }
      exists stop. split; [lia|]. split_and!; [done| |].
      * intros k Hk. destruct (decide (k = j)) as [->|]; [done|].
        apply Hbelow. lia.
      * replace (Z.of_nat j + 1 + 1) with (Z.of_nat (S j) + 1) by lia.
        cbn [accumulated] in Hrun. rewrite Hrun.
        replace (stop - j)%nat with (S (stop - S j)) by lia.
        rewrite page_requests_S, <- cons_seq. cbn [map].
        rewrite <- !app_assoc.
        by replace (Z.of_nat j + 1 + 1) with (Z.of_nat (S j) + 1) by lia.
  - exists j. replace (j - j)%nat with 0%nat by lia.
    rewrite fetch_loop_done by done.
    split; [lia|]. split_and!; [by right|lia|]. by rewrite !app_nil_r.
Qed.

(** C1, as the code has it: against a service that answers page by page and
    whose page [N] is the first to report [last], with fuel for [N] turns,
    [_fetch_texts] returns; it requests the pages 1, 2, ..., [stop] in this
    order and no other, where [stop] is 1 when the first page reports
    [empty], and otherwise page [N] or the first page after which the
    accumulated [numberOfElements] is at least the effective target count,
    whichever comes first; so no page beyond [N] is requested.  It returns
    no page in the first case and the pages 1 to [stop] otherwise. *)
Theorem _fetch_texts_pagination pages text params N fuel :
  let search_params := merge_params params in
  let run := _fetch_texts (scripted pages) fuel text search_params [] in
  first_last pages N →
  (N ≤ fuel)%nat →
  ∃ stop,
    (if empty (pages 1%nat) then stop = 1%nat
     else stop_page pages (effective_target search_params (pages 1%nat))
            N stop)
    ∧ (stop ≤ N)%nat
    ∧ requested_pages (snd run) = pages_up_to stop
    ∧ ∃ count,
        fst run
        = Return (if empty (pages 1%nat) then []
                  else map pages (seq 1 stop), count).
Proof.
  cbn zeta. intros (HN & HlastN & Hbefore) Hfuel.
  pose proof (merge_params_complete params) as Hcomplete.
  rewrite _fetch_texts_cases by done. cbn zeta.
  rewrite answer_scripted. cbn [length].
  destruct (empty (pages 1%nat)) eqn:Hempty;
    [|destruct (last (pages 1%nat)) eqn:Hlast].
  - exists 1%nat. split_and!; [done|done| |by eexists].
    cbn [snd app requested_pages map]. unfold pages_up_to. cbn [seq map].
    f_equal; apply first_request_page.
  - assert (N = 1%nat) as ->.
    { destruct (decide (N = 1%nat)) as [|Hne]; [done|].
      rewrite Hbefore in Hlast by lia. done. }
    exists 1%nat. split_and!; [|done| |by eexists].
    + split; [lia|]. split; [by left|]. intros k Hk. lia.
    + cbn [snd app requested_pages map]. unfold pages_up_to. cbn [seq map].
      f_equal; apply first_request_page.
  - assert (N ≠ 1%nat) as HN1 by (intros ->; congruence).
    set (count := if truthy _ then _ else _).
    assert (as_int count
            = effective_target (merge_params params) (pages 1%nat)) as Htarget.
    { unfold effective_target, count. rewrite Hempty, Hlast.
      by destruct (truthy _). }
    destruct (fetch_loop_scripted pages text (merge_params params)
                (totalElements (pages 1%nat)) count N Hcomplete HlastN
                fuel 1%nat [pages 1%nat]
                ([] ++ [first_request text (merge_params params)]))
      as (stop & Hstop & Hreach & Hbelow & Hrun).
    { done. }
    { lia. }
    { intros k Hk. apply Hbefore. lia. }
    { lia. }
    cbn [accumulated] in Hrun. rewrite Z.add_0_l in Hrun.
    change (Z.of_nat 1 + 1) with 2 in Hrun. rewrite Hrun.
    rewrite <- Htarget.
    exists stop. split_and!; [|lia| |].
    + split; [lia|]. split; [done|]. intros k Hk. apply Hbelow. lia.
    + cbn [snd app]. unfold requested_pages at 1. cbn [map].
      fold (requested_pages
              (page_requests text (merge_params params)
                 (totalElements (pages 1%nat)) 2 (stop - 1))).
      rewrite requested_pages_page_requests.
      replace stop with (S (stop - 1)) at 2 by lia.
      rewrite pages_up_to_S. f_equal; apply first_request_page.
    + exists count. cbn [fst]. do 2 f_equal.
      replace stop with (S (stop - 1)) at 2 by lia.
      by rewrite <- cons_seq.
Qed.

(** *** The example corpora *)

Import CorpusExample.

Lemma three_pages_first_last : first_last three_pages 3.
Proof.
  split; [lia|]. split; [done|].
  intros [|[|[|k]]] Hk; try lia; done.
Qed.

Lemma hollow_first_last : first_last hollow 2.
Proof.
  split; [lia|]. split; [done|].
  intros [|[|k]] Hk; try lia; done.
Qed.

(** A search with the defaults fetches the three pages; [page] and
    [per_page] in [params] change nothing of the traffic. *)
Example get_texts_three_pages :
  get_texts (scripted three_pages) 3 "q" None []
  = (Return (Texts ["a"; "b"; "c"; "d"; "e"]),
     [first_request "q" DEFAULT_PARAMS;
      page_request "q" DEFAULT_PARAMS 5 2;
      page_request "q" DEFAULT_PARAMS 5 3]).
Proof. vm_compute. reflexivity. Qed.

Example get_texts_page_ignored :
  map (λ request, (page (payload request), perPage (payload request),
                   rows (payload request)))
    (snd (get_texts (scripted three_pages) 3 "q"
            (Some (<["page" := VInt 7]> (<["per_page" := VInt 50]> ∅))) []))
  = [(VInt 1, VInt 10, VInt 0); (VInt 2, VInt 10, VInt 5);
     (VInt 3, VInt 10, VInt 5)].
Proof. vm_compute. reflexivity. Qed.

Example get_texts_count_3 :
  get_texts (scripted three_pages) 3 "q" (Some {["count" := VInt 3]}) []
  = (Return (Texts ["a"; "b"; "c"]),
     [first_request "q" DEFAULT_PARAMS;
      page_request "q" DEFAULT_PARAMS 5 2]).
Proof. vm_compute. reflexivity. Qed.

Example get_texts_negative_count :
  fst (get_texts (scripted single_page) 0 "q" (Some {["count" := VInt (-1)]})
         [])
  = Return (Texts ["a"; "b"]).
Proof. vm_compute. reflexivity. Qed.

Example get_texts_hollow :
  get_texts (scripted hollow) 2 "q" None []
  = (Raise (TextsNotFoundError "q"), [first_request "q" DEFAULT_PARAMS]).
Proof. vm_compute. reflexivity. Qed.

(** C1, on the example: with [count] 3 the second page reaches the target
    before the last page. *)
Lemma _fetch_texts_pagination_witness :
  ∃ stop,
    (if empty (three_pages 1%nat) then stop = 1%nat
     else stop_page three_pages
            (effective_target (merge_params (Some {["count" := VInt 3]}))
               (three_pages 1%nat)) 3 stop)
    ∧ (stop ≤ 3)%nat
    ∧ requested_pages
        (snd (_fetch_texts (scripted three_pages) 3 "q"
                (merge_params (Some {["count" := VInt 3]})) []))
      = pages_up_to stop
    ∧ ∃ count,
        fst (_fetch_texts (scripted three_pages) 3 "q"
               (merge_params (Some {["count" := VInt 3]})) [])
        = Return (if empty (three_pages 1%nat) then []
                  else map three_pages (seq 1 stop), count).
Proof.
  apply (_fetch_texts_pagination three_pages "q"
           (Some {["count" := VInt 3]}) 3 3).
  - exact three_pages_first_last.
  - lia.
Defined.

(** C1 as stated fails when the first page reports [empty] without [last]:
    the search ends after page 1, which is neither the last page nor a page
    that reaches the target. *)
Lemma pagination_not_as_stated : ¬ pagination_as_stated hollow "q" None 2.
Proof.
  intros Hclaim.
  destruct (Hclaim hollow_first_last) as (stop & Hstop & Hrequested).
  specialize (Hrequested 2%nat (le_n 2)).
  assert (requested_pages
            (snd (_fetch_texts (scripted hollow) 2 "q" (merge_params None) []))
          = [VInt 1]) as Hone by (vm_compute; reflexivity).
  rewrite Hone in Hrequested.
  assert (stop = 1%nat) as ->.
  { apply (f_equal length) in Hrequested. unfold pages_up_to in Hrequested.
    rewrite length_map, length_seq in Hrequested. done. }
  destruct Hstop as (_ & [Hlast|Hreached] & _); [done|].
  vm_compute in Hreached. by apply Hreached.
Qed.

(** C2, on the example. *)
Lemma get_texts_bodies_witness :
  fst (get_texts (scripted three_pages) 3 "q" (Some {["count" := VInt 3]}) [])
  = Return (Texts ["a"; "b"; "c"]).
Proof.
  destruct (get_texts_bodies (scripted three_pages) 3 "q"
              (Some {["count" := VInt 3]}) [] (three_pages 1%nat)
              [three_pages 1%nat; three_pages 2%nat] (VInt 3)
              [first_request "q" DEFAULT_PARAMS;
               page_request "q" DEFAULT_PARAMS 5 2]) as [Hget _].
  - reflexivity.
  - vm_compute. reflexivity.
  - done.
  - vm_compute. reflexivity.
  - rewrite Hget. vm_compute. reflexivity.
Defined.

(** C2 as stated fails for a negative [count]: the slice [[:-1]] drops one
    body and leaves two, more than the target. *)
Lemma not_truncated_as_stated :
  ¬ truncated_as_stated (scripted single_page) 0 "q"
      (Some {["count" := VInt (-1)]}) [].
Proof.
  intros Hclaim.
  specialize (Hclaim (single_page 1%nat) ["a"; "b"]).
  assert (Z.of_nat (length ["a"; "b"])
          ≤ effective_target (merge_params (Some {["count" := VInt (-1)]}))
              (single_page 1%nat)) as Hle.
  { apply Hclaim; vm_compute; reflexivity. }
  vm_compute in Hle. by apply Hle.
Qed.

(** C3, on the example: the second request carries page 2 and the
    [totalElements] of the first answer. *)
Lemma get_texts_request_pages_witness :
  ∃ request,
    snd (get_texts (scripted three_pages) 3 "q" None []) !! 1%nat
      = Some request
    ∧ page (payload request) = VInt 2
    ∧ rows (payload request) = VInt 5.
Proof.
  destruct (get_texts_request_pages (scripted three_pages) 3 "q" None [])
    as (requests & Hlog & _ & Hpages).
  cbn [app] in Hlog. rewrite Hlog.
  rewrite get_texts_three_pages in Hlog. cbn [snd] in Hlog. subst requests.
  eexists. split; [reflexivity|].
  apply (Hpages 1%nat). reflexivity.
Defined.

(** C4, on the example. *)
Lemma get_texts_not_found_witness :
  (fst (get_texts (scripted hollow) 2 "q" None [])
     = Raise (TextsNotFoundError "q")
   ↔ empty (hollow 1%nat) = true)
  ∧ (empty (hollow 1%nat) = true →
     fst (_fetch_texts (scripted hollow) 2 "q" (merge_params None) [])
     = Return ([], merge_params None !!! "count"))
  ∧ (empty (hollow 1%nat) = false →
     ∀ results new_count,
       fst (_fetch_texts (scripted hollow) 2 "q" (merge_params None) [])
         = Return (results, new_count) →
       ∃ rest, results = hollow 1%nat :: rest).
Proof.
  apply (get_texts_not_found (scripted hollow) 2 "q" None [] (hollow 1%nat)).
  reflexivity.
Defined.

End CorpusFacts.

(** * Further properties *)

(** ** The corpus client *)

Module CorpusMore.
Import Corpus CorpusFacts.

Lemma answer_None {P J} (up : Upstream P J) log request :
  answer up log request = None → status_code (up log request) ≠ 200.
Proof.
  unfold answer. destruct (_ =? 200) eqn:Hstatus; [done|].
  intros _. by apply Z.eqb_neq.
Qed.

Lemma answers_app {P J} (up : Upstream P J) log requests requests' :
  answers up log (requests ++ requests')
  = answers up log requests ++ answers up (log ++ requests) requests'.
Proof.
  revert log. induction requests as [|request requests IH]; intros log.
  - by rewrite app_nil_r.
  - cbn [app answers]. rewrite IH. by rewrite <- app_assoc.
Qed.

Lemma total_number_cons page pages :
  total_number (page :: pages) = numberOfElements page + total_number pages.
Proof. reflexivity. Qed.

Lemma total_number_app pages pages' :
  total_number (pages ++ pages') = total_number pages + total_number pages'.
Proof.
  induction pages as [|page pages IH]; [done|].
  cbn [app]. rewrite !total_number_cons. lia.
Qed.

Lemma page_requests_length text search_params total_elements curr_page n :
  length (page_requests text search_params total_elements curr_page n) = n.
Proof. unfold page_requests. by rewrite length_map, length_seq. Qed.

Section More.

Variable upstream : Upstream Payload SearchPage.

(** What holds of the pages the loop has appended when it returns: they are
    the answers to its requests; every one but the final one is not the last
    page; before each request the count was not reached; and at the end the
    count is reached or the final page is the last one. *)
Lemma fetch_loop_returns fuel text search_params total_elements count :
  complete search_params →
  ∀ curr_page curr_elements results log results' log',
    fetch_loop upstream fuel text search_params total_elements count curr_page
      curr_elements results log = (Return results', log') →
    ∃ new_pages,
      results' = results ++ new_pages
      ∧ log' = log ++ page_requests text search_params total_elements
                        curr_page (length new_pages)
      ∧ answers upstream log
          (page_requests text search_params total_elements curr_page
             (length new_pages))
        = map Some new_pages
      ∧ (∀ i page, (S i < length new_pages)%nat →
           new_pages !! i = Some page → last page = false)
      ∧ (∀ i, (i < length new_pages)%nat →
           curr_elements + total_number (take i new_pages) < as_int count)
      ∧ (as_int count ≤ curr_elements + total_number new_pages
         ∨ ∃ init final, new_pages = init ++ [final] ∧ last final = true).
Proof.
  intros Hcomplete.
  induction fuel as [|fuel IH];
    intros curr_page curr_elements results log results' log';
    destruct (Z.lt_ge_cases curr_elements (as_int count)) as [Hlt|Hge].
  - by rewrite fetch_loop_out_of_fuel.
  - rewrite fetch_loop_done by done. intros [= <- <-]. exists [].
    rewrite !app_nil_r. cbn [length].
    split_and!; [done..| | |left; cbn; lia]; intros; cbn [length] in *; lia.
  - rewrite fetch_loop_turn by done. cbn zeta.
    destruct (answer upstream log _) as [curr_res|] eqn:Hanswer; [|done].
    destruct (last curr_res) eqn:Hlast.
    + intros [= <- <-]. exists [curr_res]. cbn [length].
      rewrite page_requests_S. cbn [answers map]. rewrite Hanswer.
      split_and!; [done..| | |].
      * intros i page Hi. lia.
      * intros i Hi. replace i with 0%nat by lia. cbn. lia.
      * right. by exists [], curr_res.
    + intros Hrun.
      destruct (IH _ _ _ _ _ _ Hrun)
        as (new_pages & -> & -> & Hanswers & Hnot_last & Hbelow & Hstop).
      exists (curr_res :: new_pages). cbn [length].
      rewrite page_requests_S. cbn [answers map]. rewrite Hanswer, Hanswers.
      rewrite <- !app_assoc. split_and!; [done..| | |].
      * intros [|i] page Hi; cbn [lookup list_lookup].
        -- by intros [= <-].
        -- apply Hnot_last. lia.
      * intros [|i] Hi; cbn [take]; [cbn; lia|].
        rewrite total_number_cons. specialize (Hbelow i). lia.
      * rewrite total_number_cons.
        destruct Hstop as [Hreached|(init & final & -> & Hfinal)].
        -- left. lia.
        -- right. by exists (curr_res :: init), final.
  - rewrite fetch_loop_done by done. intros [= <- <-]. exists [].
    rewrite !app_nil_r. cbn [length].
    split_and!; [done..| | |left; cbn; lia]; intros; cbn [length] in *; lia.
Qed.

(** What holds of the pages [_fetch_texts] returns. *)
Lemma _fetch_texts_returns fuel text search_params log results new_count log' :
  complete search_params →
  _fetch_texts upstream fuel text search_params log
    = (Return (results, new_count), log') →
  ∃ first requests,
    answer upstream log (first_request text search_params) = Some first
    ∧ log' = log ++ first_request text search_params :: requests
    ∧ as_int new_count = effective_target search_params first
    ∧ ((empty first = true ∧ results = [] ∧ requests = [])
       ∨ (empty first = false
          ∧ (∃ new_pages, results = first :: new_pages)
          ∧ answers upstream log
              (first_request text search_params :: requests)
            = map Some results
          ∧ (∀ i page, (S i < length results)%nat →
               results !! i = Some page →
               last page = false
               ∧ total_number (take (S i) results) < as_int new_count)
          ∧ (as_int new_count ≤ total_number results
             ∨ ∃ init final,
                 results = init ++ [final] ∧ last final = true))).
Proof.
  intros Hcomplete. rewrite _fetch_texts_cases by done. cbn zeta.
  destruct (answer upstream log _) as [first|] eqn:Hanswer; [|done].
  destruct (empty first) eqn:Hempty; [|destruct (last first) eqn:Hlast].
  - intros [= <- <- <-]. exists first, []. split_and!; [done..| |by left].
    unfold effective_target. by rewrite Hempty, andb_false_r.
  - intros [= <- <- <-]. exists first, []. split_and!; [done..| |right].
    { unfold effective_target. by rewrite Hlast, andb_false_r. }
    cbn [answers map]. rewrite Hanswer.
    split_and!; [done|by exists []|done| |].
    + intros i page Hi. cbn [length] in Hi. lia.
    + right. by exists [], first.
  - set (count := if truthy _ then _ else _).
    assert (as_int count = effective_target search_params first) as Htarget.
    { unfold effective_target, count. rewrite Hempty, Hlast.
      by destruct (truthy _). }
    destruct (fetch_loop _ _ _ _ _ _ _ _ _ _) as [[results'|e|] log'']
      eqn:Hloop; [|done..].
    intros [= <- <- <-].
    destruct (fetch_loop_returns _ _ _ _ _ Hcomplete _ _ _ _ _ _ Hloop)
      as (new_pages & -> & -> & Hanswers & Hnot_last & Hbelow & Hstop).
    exists first, (page_requests text search_params (totalElements first) 2
                     (length new_pages)).
    rewrite <- app_assoc. split_and!; [done..|right].
    cbn [answers map app]. rewrite Hanswer, Hanswers.
    split_and!; [done|by eexists|done| |].
    + intros [|i] page Hi; cbn [lookup list_lookup length take] in *;
        rewrite total_number_cons.
      * intros [= <-]. split; [done|]. specialize (Hbelow 0%nat). cbn in Hbelow.
        cbn. lia.
      * intros Hpage. split; [apply (Hnot_last i); [lia|done]|].
        specialize (Hbelow (S i)). lia.
    + rewrite total_number_cons.
      destruct Hstop as [Hreached|(init & final & -> & Hfinal)]; [left; lia|].
      right. by exists (first :: init), final.
Qed.

(** X1: the pages [_fetch_texts] returns were all needed: every page but
    the final one does not report [last] and leaves the accumulated
    [numberOfElements] below the count that is returned with the pages; and
    the pages end because that count is reached or the final page reports
    [last]. *)
Theorem _fetch_texts_no_overfetch fuel text params log results new_count log' :
  _fetch_texts upstream fuel text (merge_params params) log
    = (Return (results, new_count), log') →
  (∀ i page, (S i < length results)%nat →
     results !! i = Some page →
     last page = false
     ∧ total_number (take (S i) results) < as_int new_count)
  ∧ (results ≠ [] →
     as_int new_count ≤ total_number results
     ∨ ∃ init final, results = init ++ [final] ∧ last final = true).
Proof.
  intros Hrun.
  destruct (_fetch_texts_returns _ _ _ _ _ _ _ (merge_params_complete params)
              Hrun)
    as (first & requests & _ & _ & _
        & [(_ & -> & _)|(_ & _ & _ & Hneeded & Hstop)]).
  - split; [|done]. intros i page Hi. cbn [length] in Hi. lia.
  - done.
Qed.

(** X2: with [return_full_json] the result of [get_texts] is the list of the
    pages answered to the requests it sent, one page for each request, in the
    order of the requests, and it is not empty. *)
Theorem get_texts_full_json fuel text params log results log' :
  get_texts upstream fuel text params log = (Return (FullPages results), log') →
  results ≠ []
  ∧ ∃ requests,
      log' = log ++ requests
      ∧ answers upstream log requests = map Some results.
Proof.
  rewrite get_texts_cases. cbn zeta.
  destruct (_fetch_texts _ _ _ _ _) as [[[results' new_count]|e|] log'']
    eqn:Hrun; [|done..].
  destruct (_fetch_texts_returns _ _ _ _ _ _ _ (merge_params_complete params)
              Hrun)
    as (first & requests & _ & -> & _
        & [(_ & -> & _)|(_ & [new_pages ->] & Hanswers & _)]); [done|].
  cbn [length Nat.eqb]. destruct (truthy _); [|done].
  intros [= <- <-]. split; [done|]. by eexists.
Qed.

(** Consistent pages hold as many bodies as they count. *)
Lemma bodies_length results :
  Forall consistent results →
  Z.of_nat (length (bodies results)) = total_number results.
Proof.
  induction 1 as [|page results Hpage _ IH]; [done|].
  unfold bodies in *. cbn [map concat]. rewrite length_app, length_map.
  rewrite total_number_cons, Hpage. lia.
Qed.

(** X3: when every page that was fetched counts what it holds, the count is
    not negative and the final page does not report [last], [get_texts]
    returns exactly as many texts as the count: fewer come back only from a
    search that reached the last page. *)
Theorem get_texts_exact_count fuel text params log results new_count log'
    init final :
  _fetch_texts upstream fuel text (merge_params params) log
    = (Return (results, new_count), log') →
  truthy (merge_params params !!! "return_full_json") = false →
  Forall consistent results →
  results = init ++ [final] →
  last final = false →
  0 ≤ as_int new_count →
  ∃ texts,
    get_texts upstream fuel text params log = (Return (Texts texts), log')
    ∧ Z.of_nat (length texts) = as_int new_count.
Proof.
  intros Hrun Hfull Hconsistent Hresults Hfinal Hcount.
  rewrite get_texts_cases. cbn zeta. rewrite Hrun, Hfull.
  assert ((length results =? 0)%nat = false) as ->.
  { rewrite Hresults, length_app. cbn [length]. apply Nat.eqb_neq. lia. }
  eexists. split; [done|].
  destruct (_fetch_texts_returns _ _ _ _ _ _ _ (merge_params_complete params)
              Hrun)
    as (first & requests & _ & _ & _
        & [(_ & Hnil & _)|(_ & _ & _ & _ & Hstop)]).
  { rewrite Hnil in Hresults. by destruct init. }
  destruct Hstop as [Hreached|(init' & final' & Heq & Hfinal')].
  - unfold slice_to. rewrite (proj2 (Z.ltb_ge _ _) Hcount), length_take.
    pose proof (bodies_length results Hconsistent). lia.
  - rewrite Hresults in Heq. apply app_inj_tail in Heq as [_ <-]. congruence.
Qed.

(** The loop raises nothing but the [APIError] of the request it sent
    last. *)
Lemma fetch_loop_raises fuel text search_params total_elements count :
  complete search_params →
  ∀ curr_page curr_elements results log e log',
    fetch_loop upstream fuel text search_params total_elements count curr_page
      curr_elements results log = (Raise e, log') →
    ∃ requests request,
      log' = log ++ requests ++ [request]
      ∧ status_code (upstream (log ++ requests) request) ≠ 200
      ∧ e = APIError (status_code (upstream (log ++ requests) request))
              (Http.text (upstream (log ++ requests) request)).
Proof.
  intros Hcomplete.
  induction fuel as [|fuel IH];
    intros curr_page curr_elements results log e log';
    destruct (Z.lt_ge_cases curr_elements (as_int count)) as [Hlt|Hge].
  - by rewrite fetch_loop_out_of_fuel.
  - by rewrite fetch_loop_done.
  - rewrite fetch_loop_turn by done. cbn zeta.
    destruct (answer upstream log _) as [curr_res|] eqn:Hanswer.
    + destruct (last curr_res); [done|]. intros Hrun.
      destruct (IH _ _ _ _ _ _ Hrun) as (requests & request & -> & Hstatus & ->).
      exists (page_request text search_params total_elements curr_page
              :: requests), request.
      rewrite <- !app_assoc in *. by split_and!.
    + intros [= <- <-].
      exists [], (page_request text search_params total_elements curr_page).
      rewrite !app_nil_r. split_and!; [done| |done]. by apply answer_None.
  - by rewrite fetch_loop_done.
Qed.

(** The exceptions this module raises in [get_texts]: [TextsNotFoundError]
    after one request, whose answer reports [empty], and the [APIError] of
    the request sent last. *)
Lemma get_texts_raises fuel text params log e log' :
  get_texts upstream fuel text params log = (Raise e, log') →
  (e = TextsNotFoundError text
   ∧ log' = log ++ [first_request text (merge_params params)]
   ∧ ∃ first,
       answer upstream log (first_request text (merge_params params))
         = Some first
       ∧ empty first = true)
  ∨ (∃ requests request,
       log' = log ++ requests ++ [request]
       ∧ status_code (upstream (log ++ requests) request) ≠ 200
       ∧ e = APIError (status_code (upstream (log ++ requests) request))
               (Http.text (upstream (log ++ requests) request))).
Proof.
  pose proof (merge_params_complete params) as Hcomplete.
  rewrite get_texts_cases. cbn zeta.
  destruct (_fetch_texts _ _ _ _ _) as [[[results new_count]|e'|] log'']
    eqn:Hrun; [| |done].
  - destruct (_fetch_texts_returns _ _ _ _ _ _ _ Hcomplete Hrun)
      as (first & requests & Hanswer & -> & _
          & [(Hempty & -> & ->)|(_ & [new_pages ->] & _)]).
    + cbn [length Nat.eqb]. intros [= <- <-]. left. by eauto.
    + cbn [length Nat.eqb]. by destruct (truthy _).
  - intros [= <- <-]. right.
    rewrite _fetch_texts_cases in Hrun by done. cbn zeta in Hrun.
    destruct (answer upstream log _) as [first|] eqn:Hanswer.
    + destruct (empty first); [done|]. destruct (last first); [done|].
      destruct (fetch_loop _ _ _ _ _ _ _ _ _ _) as [[results|e|] log1]
        eqn:Hloop; [done| |done].
      injection Hrun as <- <-.
      destruct (fetch_loop_raises _ _ _ _ _ Hcomplete _ _ _ _ _ _ Hloop)
        as (requests & request & -> & Hstatus & ->).
      exists (first_request text (merge_params params) :: requests), request.
      rewrite <- !app_assoc in *. by split_and!.
    + injection Hrun as <- <-.
      exists [], (first_request text (merge_params params)).
      rewrite !app_nil_r. split_and!; [done| |done]. by apply answer_None.
Qed.

(** X4: the two exceptions of this module in [get_texts].  When [get_texts]
    raises [TextsNotFoundError], it is for the text searched, after one
    request, whose answer reports [empty].  When it raises [APIError], the
    request it sent last was answered with a status that is not 200, the
    error carries that status and the text of that answer, and the pages
    fetched before are not returned.  Exceptions that come out of the HTTP
    library or of the decoding of an answer are not part of the statement. *)
Theorem get_texts_errors fuel text params log log' :
  (∀ missing,
     get_texts upstream fuel text params log
       = (Raise (TextsNotFoundError missing), log') →
     missing = text
     ∧ log' = log ++ [first_request text (merge_params params)]
     ∧ ∃ first,
         answer upstream log (first_request text (merge_params params))
           = Some first
         ∧ empty first = true)
  ∧ (∀ status body,
       get_texts upstream fuel text params log
         = (Raise (APIError status body), log') →
       status ≠ 200
       ∧ ∃ requests request,
           log' = log ++ requests ++ [request]
           ∧ status = status_code (upstream (log ++ requests) request)
           ∧ body = Http.text (upstream (log ++ requests) request)).
Proof.
  split.
  - intros missing Hrun.
    destruct (get_texts_raises _ _ _ _ _ _ Hrun)
      as [(Herror & Hlog & Hfirst)|(requests & request & _ & _ & Herror)];
      [|done].
    injection Herror as ->. by split_and!.
  - intros status body Hrun.
    destruct (get_texts_raises _ _ _ _ _ _ Hrun)
      as [(Herror & _)|(requests & request & Hlog & Hstatus & Herror)];
      [done|].
    injection Herror as -> ->. split; [done|].
    by exists requests, request.
Qed.

(** When every page brings at least one element, the loop finishes within as
    many turns as elements are missing. *)
Lemma fetch_loop_finishes text search_params total_elements count :
  complete search_params →
  (∀ log request page,
     answer upstream log request = Some page → 1 ≤ numberOfElements page) →
  ∀ fuel curr_page curr_elements results log,
    (Z.to_nat (as_int count - curr_elements) ≤ fuel)%nat →
    finished (fst (fetch_loop upstream fuel text search_params total_elements
                     count curr_page curr_elements results log)) = true
    ∧ (length (snd (fetch_loop upstream fuel text search_params
                      total_elements count curr_page curr_elements results
                      log))
       ≤ length log + Z.to_nat (as_int count - curr_elements))%nat.
Proof.
  intros Hcomplete Hproductive.
  induction fuel as [|fuel IH];
    intros curr_page curr_elements results log Hfuel;
    destruct (Z.lt_ge_cases curr_elements (as_int count)) as [Hlt|Hge];
    try lia.
  - rewrite fetch_loop_done by done. cbn [fst snd finished]. split; [done|lia].
  - rewrite fetch_loop_turn by done. cbn zeta.
    destruct (answer upstream log _) as [curr_res|] eqn:Hanswer.
    + pose proof (Hproductive _ _ _ Hanswer) as Hone.
      destruct (last curr_res).
      * cbn [fst snd finished]. rewrite length_app. cbn [length].
        split; [done|lia].
      * destruct (IH (curr_page + 1) (curr_elements + numberOfElements curr_res)
                    (results ++ [curr_res])
                    (log ++ [page_request text search_params total_elements
                               curr_page])) as [Hfinished Hlength]; [lia|].
        split; [done|]. rewrite length_app in Hlength. cbn [length] in Hlength.
        lia.
    + cbn [fst snd finished]. rewrite length_app. cbn [length].
      split; [done|lia].
  - rewrite fetch_loop_done by done. cbn [fst snd finished]. split; [done|lia].
Qed.

(** X5: against a service every page of which holds at least one element,
    [get_texts] finishes whenever the fuel covers the elements that the first
    page leaves missing from the target, and it sends at most one request for
    each missing element after the first. *)
Theorem get_texts_terminates fuel text params log :
  let search_params := merge_params params in
  let first := json (upstream log (first_request text search_params)) in
  let missing :=
    Z.to_nat (effective_target search_params first - numberOfElements first) in
  (∀ log0 request page,
     answer upstream log0 request = Some page → 1 ≤ numberOfElements page) →
  (missing ≤ fuel)%nat →
  finished (fst (get_texts upstream fuel text params log)) = true
  ∧ (length (snd (get_texts upstream fuel text params log))
     ≤ length log + 1 + missing)%nat.
Proof.
  cbn zeta. intros Hproductive Hfuel.
  pose proof (merge_params_complete params) as Hcomplete.
  rewrite get_texts_log, get_texts_cases. cbn zeta.
  rewrite _fetch_texts_cases by done. cbn zeta.
  destruct (answer upstream log _) as [first|] eqn:Hanswer.
  - rewrite (answer_Some _ _ _ _ Hanswer) in Hfuel |- *.
    destruct (empty first) eqn:Hempty; [|destruct (last first) eqn:Hlast].
    + cbn [fst snd finished length Nat.eqb]. rewrite length_app. cbn [length].
      split; [done|lia].
    + cbn [fst snd finished length Nat.eqb]. rewrite length_app. cbn [length].
      split; [by destruct (truthy _)|lia].
    + set (count := if truthy _ then _ else _) in *.
      assert (as_int count = effective_target (merge_params params) first)
        as Htarget.
      { unfold effective_target, count. rewrite Hempty, Hlast.
        by destruct (truthy _). }
      rewrite <- Htarget in *.
      destruct (fetch_loop_finishes text (merge_params params)
                  (totalElements first) count Hcomplete Hproductive fuel 2
                  (numberOfElements first) [first]
                  (log ++ [first_request text (merge_params params)]) Hfuel)
        as [Hfinished Hlength].
      rewrite length_app in Hlength. cbn [length] in Hlength.
      destruct (fetch_loop _ _ _ _ _ _ _ _ _ _) as [[results|e|] log1];
        cbn [fst snd] in *; [|done..].
      split; [|lia]. by repeat (case_match; cbn [fst finished]).
  - cbn [fst snd finished]. rewrite length_app. cbn [length]. split; [done|lia].
Qed.

(** Against pages that add nothing and never report [last], every turn of
    the loop is taken. *)
Lemma fetch_loop_stuck text search_params total_elements count :
  complete search_params →
  (∀ log request,
     ∃ page, answer upstream log request = Some page
             ∧ last page = false ∧ numberOfElements page ≤ 0) →
  ∀ fuel curr_page curr_elements results log,
    curr_elements < as_int count →
    fst (fetch_loop upstream fuel text search_params total_elements count
           curr_page curr_elements results log) = OutOfFuel
    ∧ length (snd (fetch_loop upstream fuel text search_params total_elements
                     count curr_page curr_elements results log))
      = (length log + fuel)%nat.
Proof.
  intros Hcomplete Hstuck.
  induction fuel as [|fuel IH];
    intros curr_page curr_elements results log Hlt.
  - rewrite fetch_loop_out_of_fuel by done. cbn [fst snd]. split; [done|lia].
  - rewrite fetch_loop_turn by done. cbn zeta.
    destruct (Hstuck log (page_request text search_params total_elements
                            curr_page)) as (page & -> & -> & Hzero).
    destruct (IH (curr_page + 1) (curr_elements + numberOfElements page)
                (results ++ [page])
                (log ++ [page_request text search_params total_elements
                           curr_page])) as [Hout Hlength]; [lia|].
    split; [done|]. rewrite Hlength, length_app. cbn [length]. lia.
Qed.

(** X6: against a service whose pages are not empty, never report [last] and
    count no element, a search for a positive target does not end: whatever
    the fuel, it is used up, with one request sent for each unit of it after
    the first request. *)
Theorem get_texts_diverges fuel text params log :
  let search_params := merge_params params in
  let first := json (upstream log (first_request text search_params)) in
  (∀ log0 request,
     ∃ page, answer upstream log0 request = Some page
             ∧ empty page = false ∧ last page = false
             ∧ numberOfElements page ≤ 0) →
  0 < effective_target search_params first →
  fst (get_texts upstream fuel text params log) = OutOfFuel
  ∧ length (snd (get_texts upstream fuel text params log))
    = (length log + 1 + fuel)%nat.
Proof.
  cbn zeta. intros Hstuck Htarget.
  pose proof (merge_params_complete params) as Hcomplete.
  rewrite get_texts_log, get_texts_cases. cbn zeta.
  rewrite _fetch_texts_cases by done. cbn zeta.
  destruct (Hstuck log (first_request text (merge_params params)))
    as (first & Hanswer & Hempty & Hlast & Hzero).
  rewrite (answer_Some _ _ _ _ Hanswer) in Htarget.
  rewrite Hanswer, Hempty, Hlast.
  set (count := if truthy _ then _ else _) in *.
  assert (as_int count = effective_target (merge_params params) first)
    as Hcount.
  { unfold effective_target, count. rewrite Hempty, Hlast.
    by destruct (truthy _). }
  destruct (fetch_loop_stuck text (merge_params params) (totalElements first)
              count Hcomplete) with (fuel := fuel) (curr_page := 2)
              (curr_elements := numberOfElements first) (results := [first])
              (log := log ++ [first_request text (merge_params params)])
    as [Hout Hlength].
  { intros log0 request. destruct (Hstuck log0 request)
      as (page & ? & _ & ? & ?). by exists page. }
  { lia. }
  rewrite length_app in Hlength. cbn [length] in Hlength.
  destruct (fetch_loop _ _ _ _ _ _ _ _ _ _) as [[results|e|] log1];
    cbn [fst snd] in *; [done..|].
  split; [done|lia].
Qed.

(** *** What the requests carry *)

Lemma first_request_query text search_params :
  carries_query text search_params (first_request text search_params).
Proof.
  unfold carries_query, first_request, first_kwargs, _build_search_payload,
    kwargs_get.
  cbn [endpoint payload fullcompare searchMode word Corpus.text].
  simplify_map_eq. by destruct (truthy _).
Qed.

Lemma page_request_query text search_params total_elements curr_page :
  carries_query text search_params
    (page_request text search_params total_elements curr_page).
Proof.
  unfold carries_query, page_request, page_kwargs, _build_search_payload,
    kwargs_get.
  cbn [endpoint payload fullcompare searchMode word Corpus.text].
  simplify_map_eq. by destruct (truthy _).
Qed.

(** X7: every request of a search goes to the endpoint [search] and carries
    the [full_compare] value of the merged parameters; when [full_text_mode]
    is set each of them has [searchMode] 1, no [word] and the query as
    [text], and otherwise [searchMode] 0, the query as [word] and no
    [text]. *)
Theorem get_texts_request_mode fuel text params log :
  ∃ requests,
    snd (get_texts upstream fuel text params log) = log ++ requests
    ∧ Forall (carries_query text (merge_params params)) requests.
Proof.
  rewrite get_texts_log.
  destruct (_fetch_texts_traffic upstream fuel text (merge_params params) log
              (merge_params_complete params)) as (n & ->).
  eexists. split; [done|].
  constructor; [apply first_request_query|].
  unfold page_requests. apply Forall_map, Forall_forall.
  intros k _. apply page_request_query.
Qed.

(** X8: an entry of [params] under a key the client does not read, such as
    [rows_count] or a misspelt name, changes neither the requests nor the
    outcome of [get_texts]. *)
Theorem get_texts_ignores_other_keys fuel text params key v log :
  key ∉ ["full_compare"; "full_text_mode"; "count"; "all_texts";
         "return_full_json"] →
  get_texts upstream fuel text (Some (<[key := v]> (default ∅ params))) log
  = get_texts upstream fuel text params log.
Proof.
  intros Hkey. apply get_texts_ext. intros key' Hkey'.
  apply merge_params_insert_ne. by intros ->.
Qed.

(** X9: with fuel for one turn at least, [get_texts] sends the first request
    and no other exactly when that request is refused, or its page reports
    [empty] or [last], or holds as many elements as the target asks for. *)
Theorem get_texts_one_request fuel text params log :
  let search_params := merge_params params in
  (1 ≤ fuel)%nat →
  snd (get_texts upstream fuel text params log)
    = log ++ [first_request text search_params]
  ↔ match answer upstream log (first_request text search_params) with
    | None => True
    | Some first =>
        empty first = true ∨ last first = true
        ∨ effective_target search_params first ≤ numberOfElements first
    end.
Proof.
  cbn zeta. intros Hfuel.
  pose proof (merge_params_complete params) as Hcomplete.
  rewrite get_texts_log, _fetch_texts_cases by done. cbn zeta.
  destruct (answer upstream log _) as [first|] eqn:Hanswer; [|done].
  destruct (empty first) eqn:Hempty; [by split; [left|]|].
  destruct (last first) eqn:Hlast; [by split; [right; left|]|].
  set (count := if truthy _ then _ else _).
  assert (as_int count = effective_target (merge_params params) first)
    as Htarget.
  { unfold effective_target, count. rewrite Hempty, Hlast.
    by destruct (truthy _). }
  rewrite <- Htarget.
  destruct (Z.lt_ge_cases (numberOfElements first) (as_int count))
    as [Hlt|Hge].
  - destruct fuel as [|fuel]; [lia|].
    split; [|intros [|[|]]; [done..|lia]].
    intros Hlog. exfalso. apply (f_equal length) in Hlog.
    rewrite fetch_loop_turn in Hlog by done. cbn zeta in Hlog.
    destruct (answer upstream (log ++ _) _) as [curr_res|].
    + destruct (last curr_res).
      * cbn [snd] in Hlog. rewrite !length_app in Hlog. cbn [length] in Hlog.
        lia.
      * destruct (fetch_loop_spec upstream fuel text (merge_params params)
                    (totalElements first) count Hcomplete 3
                    (numberOfElements first + numberOfElements curr_res)
                    ([first] ++ [curr_res])
                    ((log ++ [first_request text (merge_params params)])
                     ++ [page_request text (merge_params params)
                           (totalElements first) 2]))
          as (n & Hsnd & _).
        change (2 + 1) with 3 in Hlog.
        destruct (fetch_loop _ _ _ _ _ _ _ _ _ _) as [outcome log1].
        cbn [snd] in *. subst log1. destruct outcome;
          cbn [snd] in Hlog; rewrite !length_app in Hlog;
          cbn [length] in Hlog; lia.
    + cbn [snd] in Hlog. rewrite !length_app in Hlog. cbn [length] in Hlog.
      lia.
  - rewrite fetch_loop_done by done. cbn [snd]. split; [|done].
    intros _. right. right. lia.
Qed.

End More.

(** *** Fetching everything *)

Lemma accumulated_total pages n :
  total_number (map pages (seq 1 n)) = accumulated pages n.
Proof.
  induction n as [|n IH]; [done|].
  rewrite seq_S, map_app, total_number_app, IH. cbn [map accumulated].
  rewrite total_number_cons. cbn. lia.
Qed.

Lemma accumulated_grows pages k n :
  (k ≤ n)%nat →
  (∀ j, (k < j ≤ n)%nat → 1 ≤ numberOfElements (pages j)) →
  accumulated pages k + Z.of_nat (n - k) ≤ accumulated pages n.
Proof.
  intros Hk. induction n as [|n IH]; intros Hpages.
  - replace k with 0%nat by lia. cbn. lia.
  - destruct (decide (k = S n)) as [->|Hne].
    + replace (S n - S n)%nat with 0%nat by lia. lia.
    + cbn [accumulated]. specialize (IH ltac:(lia)).
      specialize (Hpages (S n) ltac:(lia)) as Hlast.
      assert (∀ j, (k < j ≤ n)%nat → 1 ≤ numberOfElements (pages j)) as Hrest
        by (intros j Hj; apply Hpages; lia).
      specialize (IH Hrest). lia.
Qed.

(** X10: [all_texts] fetches everything from a service that answers page by
    page, when the first page is neither empty nor the last one, page [N] is
    the first to report [last], every page up to [N] counts what it holds
    and holds something, and the first page's [totalElements] is the sum of
    what the pages hold: the pages 1 to [N] are requested and the bodies of
    all their items are returned, none cut off. *)
Theorem get_texts_all_texts pages text params N fuel :
  let search_params := merge_params params in
  first_last pages N →
  (2 ≤ N ≤ fuel)%nat →
  truthy (search_params !!! "all_texts") = true →
  truthy (search_params !!! "return_full_json") = false →
  empty (pages 1%nat) = false →
  (∀ k, (1 ≤ k ≤ N)%nat →
     consistent (pages k) ∧ 1 ≤ numberOfElements (pages k)) →
  totalElements (pages 1%nat) = accumulated pages N →
  fst (get_texts (scripted pages) fuel text params [])
    = Return (Texts (bodies (map pages (seq 1 N))))
  ∧ requested_pages (snd (get_texts (scripted pages) fuel text params []))
    = pages_up_to N.
Proof.
  cbn zeta.
  intros (_ & HlastN & Hbefore) HN Hall Hfull Hempty Hpages Htotal.
  pose proof (merge_params_complete params) as Hcomplete.
  assert (last (pages 1%nat) = false) as Hlast by (apply Hbefore; lia).
  rewrite get_texts_log, get_texts_cases. cbn zeta.
  rewrite _fetch_texts_cases by done. cbn zeta.
  rewrite answer_scripted. cbn [length]. rewrite Hempty, Hlast, Hall.
  destruct (fetch_loop_scripted pages text (merge_params params)
              (totalElements (pages 1%nat))
              (VInt (totalElements (pages 1%nat))) N Hcomplete HlastN
              fuel 1%nat [pages 1%nat]
              ([] ++ [first_request text (merge_params params)]))
    as (stop & Hstop & Hreach & Hbelow & Hrun); [done|lia| |lia|].
  { intros k Hk. apply Hbefore. lia. }
  assert (stop = N) as ->.
  { destruct Hreach as [|Hreached]; [done|].
    destruct (decide (stop = N)) as [|Hne]; [done|]. exfalso.
    cbn [as_int] in Hreached. rewrite Htotal in Hreached.
    pose proof (accumulated_grows pages stop N ltac:(lia)) as Hgrow.
    assert (∀ j, (stop < j ≤ N)%nat → 1 ≤ numberOfElements (pages j)) as Hrest
      by (intros j Hj; apply Hpages; lia).
    specialize (Hgrow Hrest). lia. }
  cbn [accumulated] in Hrun. rewrite Z.add_0_l in Hrun.
  change (Z.of_nat 1 + 1) with 2 in Hrun. rewrite Hrun.
  cbn [fst snd app length Nat.eqb]. rewrite Hfull.
  assert (pages 1%nat :: map pages (seq 2 (N - 1)) = map pages (seq 1 N))
    as ->.
  { replace N with (S (N - 1)) at 2 by lia. by rewrite <- cons_seq. }
  cbn [fst snd]. split.
  - do 2 f_equal. cbn [as_int].
    assert (Forall consistent (map pages (seq 1 N))) as Hconsistent.
    { apply Forall_map, Forall_forall. intros k Hk%elem_of_seq.
      apply Hpages. lia. }
    pose proof (bodies_length _ Hconsistent) as Hlength.
    rewrite accumulated_total in Hlength.
    unfold slice_to. rewrite Htotal.
    assert ((accumulated pages N <? 0) = false) as ->.
    { apply Z.ltb_ge. lia. }
    apply take_ge. lia.
  - unfold requested_pages at 1. cbn [map].
    fold (requested_pages
            (page_requests text (merge_params params)
               (totalElements (pages 1%nat)) 2 (N - 1))).
    rewrite requested_pages_page_requests.
    replace N with (S (N - 1)) at 2 by lia.
    rewrite pages_up_to_S. f_equal; apply first_request_page.
Qed.

(** *** The example corpora *)

Import CorpusExample MoreExamples.

(** X1, on the example: with [count] 3 the first page was needed. *)
Lemma _fetch_texts_no_overfetch_witness :
  last (three_pages 1%nat) = false
  ∧ total_number (take 1 [three_pages 1%nat; three_pages 2%nat])
    < as_int (VInt 3).
Proof.
  destruct (_fetch_texts_no_overfetch (scripted three_pages) 3 "q"
              (Some {["count" := VInt 3]}) []
              [three_pages 1%nat; three_pages 2%nat] (VInt 3)
              [first_request "q" DEFAULT_PARAMS;
               page_request "q" DEFAULT_PARAMS 5 2]) as [Hneeded _].
  - vm_compute. reflexivity.
  - apply (Hneeded 0%nat); [cbn [length]; lia|reflexivity].
Defined.

(** X2, on the example. *)
Lemma get_texts_full_json_witness :
  [three_pages 1%nat; three_pages 2%nat] ≠ []
  ∧ ∃ requests,
      [first_request "q" DEFAULT_PARAMS; page_request "q" DEFAULT_PARAMS 5 2]
      = [] ++ requests
      ∧ answers (scripted three_pages) [] requests
        = map Some [three_pages 1%nat; three_pages 2%nat].
Proof.
  apply (get_texts_full_json (scripted three_pages) 3 "q"
           (Some (<["return_full_json" := VBool true]>
                    {["count" := VInt 3]})) []).
  vm_compute. reflexivity.
Defined.

(** X3, on the example: three texts for [count] 3. *)
Lemma get_texts_exact_count_witness :
  ∃ texts,
    get_texts (scripted three_pages) 3 "q" (Some {["count" := VInt 3]}) []
    = (Return (Texts texts),
       [first_request "q" DEFAULT_PARAMS; page_request "q" DEFAULT_PARAMS 5 2])
    ∧ Z.of_nat (length texts) = as_int (VInt 3).
Proof.
  apply (get_texts_exact_count (scripted three_pages) 3 "q"
           (Some {["count" := VInt 3]}) []
           [three_pages 1%nat; three_pages 2%nat] (VInt 3)
           [first_request "q" DEFAULT_PARAMS;
            page_request "q" DEFAULT_PARAMS 5 2]
           [three_pages 1%nat] (three_pages 2%nat)).
  - vm_compute. reflexivity.
  - vm_compute. reflexivity.
  - repeat constructor.
  - reflexivity.
  - reflexivity.
  - cbn. lia.
Defined.

(** X4, on the examples: an empty first page, and a second request that is
    refused. *)
Lemma get_texts_errors_witness :
  ("q" = "q"
   ∧ [first_request "q" DEFAULT_PARAMS]
     = [] ++ [first_request "q" (merge_params None)]
   ∧ ∃ first,
       answer (scripted hollow) [] (first_request "q" (merge_params None))
         = Some first
       ∧ empty first = true)
  ∧ 503 ≠ 200
  ∧ ∃ requests request,
      [first_request "q" DEFAULT_PARAMS; page_request "q" DEFAULT_PARAMS 5 2]
      = [] ++ requests ++ [request]
      ∧ 503 = status_code (failing ([] ++ requests) request)
      ∧ "Service Unavailable" = Http.text (failing ([] ++ requests) request).
Proof.
  split.
  - apply (proj1 (get_texts_errors (scripted hollow) 2 "q" None []
                    [first_request "q" DEFAULT_PARAMS]) "q").
    vm_compute. reflexivity.
  - apply (proj2 (get_texts_errors failing 3 "q" None []
                    [first_request "q" DEFAULT_PARAMS;
                     page_request "q" DEFAULT_PARAMS 5 2])
             503 "Service Unavailable").
    vm_compute. reflexivity.
Defined.

(** X5, on the example: eight elements are missing after the first page. *)
Lemma get_texts_terminates_witness :
  finished (fst (get_texts (scripted three_pages) 8 "q" None [])) = true
  ∧ (length (snd (get_texts (scripted three_pages) 8 "q" None []))
     ≤ length (@nil (Request Payload)) + 1
       + Z.to_nat
           (effective_target (merge_params None)
              (json (scripted three_pages []
                       (first_request "q" (merge_params None))))
            - numberOfElements
                (json (scripted three_pages []
                         (first_request "q" (merge_params None))))))%nat.
Proof.
  apply (get_texts_terminates (scripted three_pages) 8 "q" None []).
  - intros log0 request page. rewrite answer_scripted. intros [= <-].
    destruct (length log0) as [|[|k]]; cbn; lia.
  - vm_compute. lia.
Defined.

(** X6, on the example. *)
Lemma get_texts_diverges_witness :
  fst (get_texts (scripted stuck) 5 "q" None []) = OutOfFuel
  ∧ length (snd (get_texts (scripted stuck) 5 "q" None []))
    = (length (@nil (Request Payload)) + 1 + 5)%nat.
Proof.
  apply (get_texts_diverges (scripted stuck) 5 "q" None []).
  - intros log0 request. exists (stuck (S (length log0))).
    split_and!; [reflexivity|reflexivity|reflexivity|cbn; lia].
  - vm_compute. reflexivity.
Defined.

(** X8, on the example: a [rows_count] entry is not read. *)
Lemma get_texts_ignores_other_keys_witness :
  get_texts (scripted three_pages) 3 "q"
    (Some (<["rows_count" := VInt 99]> (default ∅ None))) []
  = get_texts (scripted three_pages) 3 "q" None [].
Proof.
  apply (get_texts_ignores_other_keys (scripted three_pages) 3 "q" None
           "rows_count" (VInt 99) []).
  intros Hin.
  repeat (apply elem_of_cons in Hin as [Hin|Hin]; [discriminate Hin|]).
  by apply elem_of_nil in Hin.
Defined.

(** X9, on the example. *)
Lemma get_texts_one_request_witness :
  snd (get_texts (scripted three_pages) 1 "q" (Some {["count" := VInt 2]}) [])
    = [] ++ [first_request "q" (merge_params (Some {["count" := VInt 2]}))]
  ↔ match answer (scripted three_pages) []
            (first_request "q" (merge_params (Some {["count" := VInt 2]})))
    with
    | None => True
    | Some first =>
        empty first = true ∨ last first = true
        ∨ effective_target (merge_params (Some {["count" := VInt 2]})) first
          ≤ numberOfElements first
    end.
Proof.
  apply (get_texts_one_request (scripted three_pages) 1 "q"
           (Some {["count" := VInt 2]}) []).
  lia.
Defined.

(** X10, on the example: the five texts of the three pages. *)
Lemma get_texts_all_texts_witness :
  fst (get_texts (scripted three_pages) 3 "q"
         (Some {["all_texts" := VBool true]}) [])
    = Return (Texts (bodies (map three_pages (seq 1 3))))
  ∧ requested_pages
      (snd (get_texts (scripted three_pages) 3 "q"
              (Some {["all_texts" := VBool true]}) []))
    = pages_up_to 3.
Proof.
  apply (get_texts_all_texts three_pages "q"
           (Some {["all_texts" := VBool true]}) 3 3).
  - exact three_pages_first_last.
  - lia.
  - vm_compute. reflexivity.
  - vm_compute. reflexivity.
  - reflexivity.
  - intros [|[|[|[|k]]]] Hk; try lia; (split; [reflexivity|cbn; lia]).
  - vm_compute. reflexivity.
Defined.

End CorpusMore.

(** ** The dictionary client *)

Module DictionaryMore.
Import Dictionary DictionaryFacts.

(** *** Lists of keys *)

Lemma filter_ne_id (key : Call) (order : list Call) :
  key ∉ order → filter (λ k, k ≠ key) order = order.
Proof.
  induction order as [|k order IH]; [done|].
  rewrite not_elem_of_cons. intros [Hne Hnot].
  rewrite filter_cons_True by (by intros ->). by rewrite IH.
Qed.

Lemma filter_ne_length (key : Call) (order : list Call) :
  NoDup order →
  (length order ≤ S (length (filter (λ k, k ≠ key) order)))%nat.
Proof.
  induction 1 as [|k order Hnot Hnodup IH]; [cbn; lia|].
  destruct (decide (k = key)) as [->|Hne].
  - rewrite filter_cons_False by (intros Hne; by apply Hne).
    rewrite filter_ne_id by done. cbn. lia.
  - rewrite filter_cons_True by done. cbn. lia.
Qed.

(** Dropping a key that is among the first [S m] and cutting to [m], and
    adding a key that is not among the first [m]. *)
Lemma take_filter_hit m (key : Call) (order : list Call) :
  NoDup order →
  key ∈ take (S m) order →
  filter (λ k, k ≠ key) (take (S m) order)
  = take m (filter (λ k, k ≠ key) order).
Proof.
  intros Hnodup Hin.
  rewrite <- (take_drop (S m) order) at 2. rewrite filter_app, take_app.
  assert (length (filter (λ k, k ≠ key) (take (S m) order))
          < length (take (S m) order))%nat as Hlt.
  { apply (length_filter_lt _ _ key); [done|]. intros Hne. by apply Hne. }
  assert (length (take (S m) order)
          ≤ S (length (filter (λ k, k ≠ key) (take (S m) order))))%nat
    as Hle.
  { apply filter_ne_length. eapply sublist_NoDup; [done|apply sublist_take]. }
  rewrite length_take in Hlt, Hle.
  rewrite (take_ge (filter _ (take (S m) order))) by lia.
  destruct (decide (length order ≤ S m)%nat) as [Hshort|Hlong].
  - rewrite drop_ge by done. rewrite filter_nil, take_nil. by rewrite app_nil_r.
  - replace (m - length (filter (λ k, k ≠ key) (take (S m) order)))%nat
      with 0%nat by lia.
    rewrite take_0. by rewrite app_nil_r.
Qed.

Lemma take_filter_miss m (key : Call) (order : list Call) :
  key ∉ take m order →
  take m order = take m (filter (λ k, k ≠ key) order).
Proof.
  intros Hnot.
  rewrite <- (take_drop m order) at 2.
  rewrite filter_app, take_app, (filter_ne_id _ (take m order)) by done.
  rewrite take_idemp.
  destruct (decide (length order ≤ m)%nat) as [Hshort|Hlong].
  - rewrite drop_ge by done. rewrite filter_nil, take_nil. by rewrite app_nil_r.
  - rewrite length_take.
    replace (m - m `min` length order)%nat with 0%nat by lia.
    rewrite take_0. by rewrite app_nil_r.
Qed.

Lemma cache_remove_keys key cache :
  NoDup cache.*1 →
  (cache_remove key cache).*1 = filter (λ k, k ≠ key) cache.*1.
Proof.
  induction cache as [|[k a] cache IH]; [done|].
  rewrite fmap_cons. cbn [fst cache_remove].
  rewrite NoDup_cons. intros [Hnot Hnodup].
  destruct (decide (k = key)) as [->|Hne].
  - rewrite filter_cons_False by (intros Hne; by apply Hne).
    by rewrite filter_ne_id.
  - rewrite filter_cons_True by done. rewrite fmap_cons. cbn [fst].
    by rewrite IH.
Qed.

Section More.

Variable analyze_lemma : string → string.
Variable html_text : string → string.
Variable upstream : Upstream Payload (list Item).

Local Abbreviation get_word :=
  (Dictionary.get_word analyze_lemma html_text upstream).

(** *** What [get_word] gives *)

(** X13: what [get_word] returns is never empty: it comes from the array,
    not empty, that answered the last request sent; with [return_full_json]
    it is that array itself, otherwise one string for each of its items. *)
Theorem get_word_returns word lang replace_tilde return_full_json
    lemmatize_if_not_found log result log' :
  get_word word lang replace_tilde return_full_json lemmatize_if_not_found log
    = (Return result, log') →
  ∃ requests request response,
    log' = log ++ requests ++ [request]
    ∧ answer upstream (log ++ requests) request = Some response
    ∧ response ≠ []
    ∧ match result with
      | FullJson raw => return_full_json = true ∧ raw = response
      | Translations texts =>
          return_full_json = false
          ∧ texts = _process_response html_text response word replace_tilde
          ∧ length texts = length response
      end.
Proof.
  destruct (LANGUAGES !! lang) as [language|] eqn:Hlang;
    [|by rewrite get_word_unsupported].
  rewrite (get_word_cases _ _ _ _ _ language) by done. cbn zeta.
  destruct (answer upstream log _) as [[|item items]|] eqn:Hfirst; [| |done].
  - destruct (_ && _); [|done].
    destruct (answer upstream (log ++ _) _) as [[|item items]|] eqn:Hretry;
      [done| |done].
    intros [= <- <-].
    exists [search_request word language],
      (search_request (analyze_lemma word) language), (item :: items).
    split_and!; [done..|].
    unfold finish. destruct return_full_json; [done|].
    split_and!; [done..|]. unfold Dictionary._process_response.
    by rewrite length_map.
  - intros [= <- <-].
    exists [], (search_request word language), (item :: items).
    rewrite app_nil_r. split_and!; [done..|].
    unfold finish. destruct return_full_json; [done|].
    split_and!; [done..|]. unfold Dictionary._process_response.
    by rewrite length_map.
Qed.

(** X14: the two exceptions of this module that follow a request in
    [get_word].  When [get_word] raises [WordNotFoundError], it is with the
    word as it was given, never the lemma, after a request for the word that
    was answered with an empty array; either that was the only request, or
    [lemmatize_if_not_found] is true and a second request, for the lemma, was
    answered with an empty array too.  When it raises [APIError], the request
    it sent last was answered with a status that is not 200, and the error
    carries that status and the text of that answer.  Exceptions that come
    out of the HTTP library or of the decoding of an answer are not part of
    the statement. *)
Theorem get_word_errors word lang replace_tilde return_full_json
    lemmatize_if_not_found log log' :
  (∀ missing,
     get_word word lang replace_tilde return_full_json lemmatize_if_not_found
       log = (Raise (WordNotFoundError missing), log') →
     missing = word
     ∧ ∃ language,
         LANGUAGES !! lang = Some language
         ∧ answer upstream log (search_request word language) = Some []
         ∧ (log' = log ++ [search_request word language]
            ∨ lemmatize_if_not_found = true
              ∧ log' = log ++ [search_request word language;
                               search_request (analyze_lemma word) language]
              ∧ answer upstream (log ++ [search_request word language])
                  (search_request (analyze_lemma word) language)
                = Some []))
  ∧ (∀ status body,
       get_word word lang replace_tilde return_full_json
         lemmatize_if_not_found log = (Raise (APIError status body), log') →
       status ≠ 200
       ∧ ∃ requests request,
           log' = log ++ requests ++ [request]
           ∧ status = status_code (upstream (log ++ requests) request)
           ∧ body = Http.text (upstream (log ++ requests) request)).
Proof.
  split.
  - intros missing.
    destruct (LANGUAGES !! lang) as [language|] eqn:Hlang;
      [|by rewrite get_word_unsupported].
    rewrite (get_word_cases _ _ _ _ _ language) by done. cbn zeta.
    destruct (answer upstream log _) as [[|item items]|] eqn:Hfirst;
      [|done..].
    destruct lemmatize_if_not_found; cbn [andb].
    + destruct (negb _).
      * destruct (answer upstream (log ++ _) _) as [[|item items]|]
          eqn:Hretry; [|done..].
        intros [= <- <-]. split; [done|]. exists language.
        split_and!; [done..|]. right. by split_and!.
      * intros [= <- <-]. split; [done|]. exists language.
        split_and!; [done..|]. by left.
    + intros [= <- <-]. split; [done|]. exists language.
      split_and!; [done..|]. by left.
  - intros status body.
    destruct (LANGUAGES !! lang) as [language|] eqn:Hlang;
      [|by rewrite get_word_unsupported].
    rewrite (get_word_cases _ _ _ _ _ language) by done. cbn zeta.
    destruct (answer upstream log _) as [[|item items]|] eqn:Hfirst;
      [|done|].
    + destruct (_ && _); [|done].
      destruct (answer upstream (log ++ _) _) as [[|item items]|]
        eqn:Hretry; [done..|].
      intros [= <- <- <-]. split; [by apply CorpusMore.answer_None|].
      by exists [search_request word language],
        (search_request (analyze_lemma word) language).
    + intros [= <- <- <-]. split; [by apply CorpusMore.answer_None|].
      exists [], (search_request word language). by rewrite app_nil_r.
Qed.

(** X15: [replace_tilde] and [return_full_json] change what is made of the
    response only: the requests [get_word] sends and the exception it
    raises, if any, are the same whatever these two flags are. *)
Theorem get_word_flags word lang replace_tilde return_full_json replace_tilde'
    return_full_json' lemmatize_if_not_found log :
  let run := get_word word lang replace_tilde return_full_json
               lemmatize_if_not_found log in
  let run' := get_word word lang replace_tilde' return_full_json'
                lemmatize_if_not_found log in
  snd run = snd run'
  ∧ ∀ e, fst run = Raise e ↔ fst run' = Raise e.
Proof.
  cbn zeta. destruct (LANGUAGES !! lang) as [language|] eqn:Hlang.
  - rewrite !(get_word_cases _ _ _ _ _ language) by done. cbn zeta.
    destruct (answer upstream log _) as [[|item items]|]; [|done..].
    destruct (_ && _); [|done].
    by destruct (answer upstream (log ++ _) _) as [[|item' items']|].
  - by rewrite !get_word_unsupported.
Qed.

(** X16: [replace_tilde] changes nothing in the strings of items whose text
    holds no [~]. *)
Theorem _process_response_no_tilde response word :
  Forall (λ item, str_contains tilde (html_text (body item)) = false)
    response →
  _process_response html_text response word true
  = _process_response html_text response word false.
Proof.
  intros Hfree. unfold Dictionary._process_response.
  apply map_ext_Forall. eapply Forall_impl; [exact Hfree|].
  intros item Hitem. cbn beta zeta. by apply str_replace_absent.
Qed.

(** X17: the fallback does not look whether the lemma differs from the
    word: for a word that is its own lemma and is not found, against a
    stable service, the same request is sent a second time and
    [WordNotFoundError] is raised. *)
Theorem get_word_own_lemma word lang language replace_tilde return_full_json
    log :
  stable upstream →
  LANGUAGES !! lang = Some language →
  analyze_lemma word = word →
  word ≠ "" →
  answer upstream log (search_request word language) = Some [] →
  get_word word lang replace_tilde return_full_json true log
  = (Raise (WordNotFoundError word),
     log ++ [search_request word language; search_request word language]).
Proof.
  intros Hstable Hlang Hown Hword Hfirst.
  rewrite (get_word_cases _ _ _ _ _ language) by done. cbn zeta.
  rewrite Hfirst, Hown.
  assert (String.eqb word "" = false) as -> by by apply String.eqb_neq.
  cbn [andb negb].
  by rewrite (answer_stable upstream (log ++ _) log _ Hstable), Hfirst.
Qed.

(** *** The cache *)

Local Abbreviation user_function :=
  (Dictionary.user_function analyze_lemma html_text upstream).
Local Abbreviation call := (Dictionary.call analyze_lemma html_text upstream).
Local Abbreviation step := (Dictionary.step analyze_lemma html_text upstream).
Local Abbreviation run := (Dictionary.run analyze_lemma html_text upstream).
Local Abbreviation returned :=
  (Dictionary.returned analyze_lemma html_text upstream).
Local Abbreviation coherent := (coherent analyze_lemma html_text upstream).

(** One event keeps the keys of the cache the first [maxsize] of the keys
    in the order of their last use. *)
Lemma step_entries_order world event order :
  NoDup order →
  (entries world).*1 = take maxsize order →
  let order' :=
    foldl (λ order key, key :: filter (λ k, k ≠ key) order) order
      (returned [event] world) in
  NoDup order' ∧ (entries (step world event)).*1 = take maxsize order'.
Proof.
  intros Hnodup Hkeys. cbn zeta. cbn [Dictionary.returned].
  rewrite app_nil_r.
  assert (∀ key, NoDup (key :: filter (λ k, k ≠ key) order)) as Hnodup'.
  { intros key. apply NoDup_cons. split; [|by apply NoDup_filter].
    rewrite list_elem_of_filter. by intros [Hne _]. }
  destruct event as [key|address value]; [|done].
  cbn [Dictionary.step].
  destruct (cache_lookup key (entries world)) as [a|] eqn:Hlookup.
  - rewrite (call_hit _ _ _ _ _ a) by done. cbn [fst snd entries foldl].
    split; [done|]. rewrite fmap_cons. cbn [fst].
    rewrite cache_remove_keys
      by (rewrite Hkeys; eapply sublist_NoDup; [done|apply sublist_take]).
    rewrite Hkeys. unfold maxsize. cbn [take]. f_equal.
    apply take_filter_hit; [done|].
    change (take 128 order) with (take maxsize order). rewrite <- Hkeys.
    by eapply cache_lookup_elem_of.
  - rewrite call_miss by done.
    destruct (user_function key (traffic world)) as [[result|e|] log'];
      cbn [fst snd entries foldl]; [|done..].
    split; [done|]. rewrite fmap_take, fmap_cons. cbn [fst].
    rewrite Hkeys. unfold maxsize. cbn [take]. f_equal.
    rewrite take_take. change (127 `min` 128)%nat with 127%nat.
    apply take_filter_miss. intros Hin.
    apply cache_lookup_None in Hlookup. apply Hlookup. rewrite Hkeys.
    unfold maxsize. apply (subseteq_take 127 (take 128 order)).
    rewrite take_take. exact Hin.
Qed.

Lemma run_entries_order events :
  ∀ world order,
    NoDup order →
    (entries world).*1 = take maxsize order →
    (entries (run events world)).*1
    = take maxsize
        (foldl (λ order key, key :: filter (λ k, k ≠ key) order) order
           (returned events world)).
Proof.
  induction events as [|event events IH]; intros world order Hnodup Hkeys;
    [done|].
  cbn [Dictionary.run foldl Dictionary.returned]. rewrite foldl_app.
  destruct (step_entries_order world event order Hnodup Hkeys)
    as [Hnodup' Hkeys'].
  cbn [Dictionary.returned] in Hnodup', Hkeys'.
  rewrite app_nil_r in Hnodup', Hkeys'.
  by apply IH.
Qed.

(** X12: the cache is one of least recent use.  At any time its keys are,
    in order, the calls that returned, each once, by the time of their last
    use, the most recent first, cut to the first 128: a call that returns,
    from the cache or not, becomes the most recent, and what falls out when
    a 129th key comes in is the key used least recently. *)
Theorem cache_most_recently_used events :
  (entries (run events fresh)).*1
  = take maxsize (recency (returned events fresh)).
Proof. apply run_entries_order; [constructor|done]. Qed.

(** Without callers changing objects, against a stable service, every entry
    of the cache holds what the body returns for its key. *)
Lemma step_coherent world key :
  stable upstream → coherent world → coherent (step world (Calls key)).
Proof.
  intros Hstable Hco k address. cbn [Dictionary.step].
  destruct (cache_lookup key (entries world)) as [a|] eqn:Hlookup.
  - rewrite (call_hit _ _ _ _ _ a) by done. cbn.
    destruct (decide (key = k)) as [->|Hne].
    + intros [= <-]. by apply Hco.
    + rewrite cache_lookup_remove_ne by done. apply Hco.
  - rewrite call_miss by done.
    rewrite user_function_stable by done.
    destruct (user_function key []) as [[result|e|] requests] eqn:Hbody;
      cbn [fst snd entries objects]; [|apply Hco..].
    intros Htake. apply cache_lookup_take in Htake. cbn in Htake.
    destruct (decide (key = k)) as [->|Hne].
    + injection Htake as <-. exists result. split.
      * by apply list_lookup_middle.
      * by rewrite Hbody.
    + destruct (Hco k address Htake) as (result' & Hobject & Hbody').
      exists result'. split; [|done]. by apply lookup_app_l_Some.
Qed.

Lemma run_coherent events :
  stable upstream →
  changes_of events = [] →
  ∀ world, coherent world → coherent (run events world).
Proof.
  intros Hstable.
  induction events as [|[key|address value] events IH]; [done| |done].
  intros Hcalls world Hco. cbn [Dictionary.run foldl].
  apply IH; [done|]. by apply step_coherent.
Qed.

(** X11: against a stable service and as long as no caller changes an
    object it was handed, the cache cannot be told from the outcome: at any
    time a call returns an object that holds what the body would return for
    the call, run at that very moment, or raises the exception the body
    would raise. *)
Theorem call_transparent events key :
  stable upstream →
  changes_of events = [] →
  let world := run events fresh in
  match fst (call key world) with
  | Return address =>
      ∃ result,
        objects (snd (call key world)) !! address = Some result
        ∧ fst (user_function key (traffic world)) = Return result
  | Raise e => fst (user_function key (traffic world)) = Raise e
  | OutOfFuel => False
  end.
Proof.
  intros Hstable Hcalls. cbn zeta.
  assert (coherent (run events fresh)) as Hco.
  { apply run_coherent; [done..|]. by intros k address. }
  destruct (cache_lookup key (entries (run events fresh))) as [a|]
    eqn:Hlookup.
  - rewrite (call_hit _ _ _ _ _ a) by done. cbn [fst snd objects].
    destruct (Hco key a Hlookup) as (result & Hobject & Hbody).
    exists result. split; [done|].
    by rewrite user_function_stable.
  - rewrite call_miss by done.
    pose proof (user_function_finished analyze_lemma html_text upstream key
                  (traffic (run events fresh))) as Hfinished.
    destruct (user_function key (traffic (run events fresh)))
      as [[result|e|] log']; cbn [fst snd objects]; [|done..].
    exists result. split; [|done]. by apply list_lookup_middle.
Qed.

End More.

(** *** The example dictionaries *)

Import DictionaryExample MoreExamples.

(** X13, on the example. *)
Lemma get_word_returns_witness :
  ∃ requests request response,
    [search_request "укно" udm] = [] ++ requests ++ [request]
    ∧ answer service ([] ++ requests) request = Some response
    ∧ response ≠ []
    ∧ false = false
    ∧ ["укно окно; укно пиала оконное стекло"]
      = _process_response strip_tags response "укно" true
    ∧ length ["укно окно; укно пиала оконное стекло"] = length response.
Proof.
  apply (get_word_returns lemma_of strip_tags service "укно" "udm" true false
           false []
           (Translations ["укно окно; укно пиала оконное стекло"])).
  vm_compute. reflexivity.
Defined.

(** X14, on the examples: a word that is not found, and a service that
    refuses. *)
Lemma get_word_errors_witness :
  ("asdfqwerty123" = "asdfqwerty123"
   ∧ ∃ language,
       LANGUAGES !! "udm" = Some language
       ∧ answer service [] (search_request "asdfqwerty123" language) = Some []
       ∧ ([search_request "asdfqwerty123" udm]
          = [] ++ [search_request "asdfqwerty123" language]
          ∨ false = true
            ∧ [search_request "asdfqwerty123" udm]
              = [] ++ [search_request "asdfqwerty123" language;
                       search_request (lemma_of "asdfqwerty123") language]
            ∧ answer service ([] ++ [search_request "asdfqwerty123" language])
                (search_request (lemma_of "asdfqwerty123") language)
              = Some []))
  ∧ 503 ≠ 200
  ∧ ∃ requests request,
      [search_request "укно" udm] = [] ++ requests ++ [request]
      ∧ 503 = status_code (refusing ([] ++ requests) request)
      ∧ "Service Unavailable" = Http.text (refusing ([] ++ requests) request).
Proof.
  split.
  - apply (proj1 (get_word_errors lemma_of strip_tags service "asdfqwerty123"
                    "udm" false false false []
                    [search_request "asdfqwerty123" udm]) "asdfqwerty123").
    vm_compute. reflexivity.
  - apply (proj2 (get_word_errors lemma_of strip_tags refusing "укно" "udm"
                    false false false [] [search_request "укно" udm])
             503 "Service Unavailable").
    vm_compute. reflexivity.
Defined.

(** X11, on the example: a lookup by one client, a lookup by another, and
    the first lookup again, which is served from the cache. *)
Lemma call_transparent_witness :
  fst (call lemma_of strip_tags service window_call
         (run lemma_of strip_tags service
            [Calls window_call; Calls water_call] fresh))
  = Return 0%nat
  ∧ match
      fst (call lemma_of strip_tags service window_call
             (run lemma_of strip_tags service
                [Calls window_call; Calls water_call] fresh))
    with
    | Return address =>
        ∃ result,
          objects
            (snd (call lemma_of strip_tags service window_call
                    (run lemma_of strip_tags service
                       [Calls window_call; Calls water_call] fresh)))
            !! address = Some result
          ∧ fst (user_function lemma_of strip_tags service window_call
                   (traffic (run lemma_of strip_tags service
                               [Calls window_call; Calls water_call] fresh)))
            = Return result
    | Raise e =>
        fst (user_function lemma_of strip_tags service window_call
               (traffic (run lemma_of strip_tags service
                           [Calls window_call; Calls water_call] fresh)))
        = Raise e
    | OutOfFuel => False
    end.
Proof.
  split; [vm_compute; reflexivity|].
  apply (call_transparent lemma_of strip_tags service
           [Calls window_call; Calls water_call] window_call).
  - exact service_stable.
  - reflexivity.
Defined.

(** X12, on the example: 128 lookups fill the cache; the first of them is
    then repeated, which is a hit; a 129th word then drives out the second
    lookup, the one used least recently, and not the first. *)
Lemma cache_most_recently_used_witness :
  (Dictionary.entries
     (run own_lemma strip_tags echo
        (numbered_calls
         ++ [Calls (numbered_call 0); Calls (numbered_call 128)]) fresh)).*1
  = take maxsize
      (recency
         (returned own_lemma strip_tags echo
            (numbered_calls
             ++ [Calls (numbered_call 0); Calls (numbered_call 128)]) fresh))
  ∧ length (traffic (run own_lemma strip_tags echo
                       (numbered_calls ++ [Calls (numbered_call 0)]) fresh))
    = 128%nat
  ∧ cache_lookup (numbered_call 0)
      (Dictionary.entries
         (run own_lemma strip_tags echo
            (numbered_calls
             ++ [Calls (numbered_call 0); Calls (numbered_call 128)]) fresh))
    = Some 0%nat
  ∧ cache_lookup (numbered_call 1)
      (Dictionary.entries
         (run own_lemma strip_tags echo
            (numbered_calls
             ++ [Calls (numbered_call 0); Calls (numbered_call 128)]) fresh))
    = None.
Proof.
  split.
  - apply (cache_most_recently_used own_lemma strip_tags echo).
  - vm_compute. by split_and!.
Defined.

(** X16, on the example. *)
Lemma _process_response_no_tilde_witness :
  _process_response strip_tags [mkItem "<p>окно</p>" "укно"] "укно" true
  = _process_response strip_tags [mkItem "<p>окно</p>" "укно"] "укно" false.
Proof.
  apply (_process_response_no_tilde strip_tags
           [mkItem "<p>окно</p>" "укно"] "укно").
  repeat constructor.
Defined.

(** X17, on the example. *)
Lemma get_word_own_lemma_witness :
  get_word own_lemma strip_tags service "asdfqwerty123" "udm" false false true
    []
  = (Raise (WordNotFoundError "asdfqwerty123"),
     [] ++ [search_request "asdfqwerty123" udm;
            search_request "asdfqwerty123" udm]).
Proof.
  apply (get_word_own_lemma own_lemma strip_tags service
           "asdfqwerty123" "udm" udm false false []).
  - exact service_stable.
  - vm_compute. reflexivity.
  - reflexivity.
  - done.
  - vm_compute. reflexivity.
Defined.

End DictionaryMore.
